(** * Job queue resolver (src/index.ts): entities, store and resolver

    The program is a GraphQL resolver class [JobsResolver] over three TypeORM
    entities ([JobWorker], [Job], [LogMessage]) kept in an SQLite database.
    The embedding below threads the database explicitly:

    - a table is the list of its rows in insertion order, together with the
      AUTOINCREMENT counter of its [PrimaryGeneratedColumn];
    - a many-to-one relation is stored as the column it is in the database,
      the identifier of the referenced row;
    - identifiers, priorities and timestamps are integers ([Z]); the
      timestamp the database stamps on a row is the argument [now] of the
      request being served;
    - an [async] method is a function from the store to a settled promise
      ([Fulfilled] or [Rejected]) and the store it leaves behind. *)

From Stdlib Require Import ZArith List String Bool Lia DecimalString.
From Stdlib Require DecimalZ.
Import ListNotations.
Open Scope string_scope.
Open Scope Z_scope.

(** ** JavaScript helpers *)

(** A number inside a template literal: [`${n}`]. *)
Definition show_number (n : Z) : string := NilZero.string_of_int (Z.to_int n).

(** [x || d] on an optional number: [undefined] and [0] are falsy. *)
Definition js_or (x : option Z) (d : Z) : Z :=
  match x with
  | None => d
  | Some v => if v =? 0 then d else v
  end.

(** ** enum JobStatus *)

Inductive JobStatus : Type := waiting | running | finished.

Definition JobStatus_value (st : JobStatus) : Z :=
  match st with
  | waiting => 100
  | running => 200
  | finished => 300
  end.

Definition JobStatus_eqb (a b : JobStatus) : bool :=
  JobStatus_value a =? JobStatus_value b.

(** ** Input types *)

Module CreateJobInput.
Record t : Type := mk { name : string; inData : option string; priority : option Z }.
End CreateJobInput.

Module CreateJobWorkerInput.
Record t : Type := mk { name : string }.
End CreateJobWorkerInput.

Module GetJobInput.
Record t : Type := mk { workerId : Z }.
End GetJobInput.

Module CreateLogMessageInput.
Record t : Type := mk { jobId : Z; workerId : Z; text : string }.
End CreateLogMessageInput.

(** ** Entities *)

Module JobWorker.
Record t : Type := mk {
  id : Z;
  name : string;
  createdAt : Z;
  updatedAt : Z
}.
End JobWorker.

Module Job.
Record t : Type := mk {
  id : Z;
  name : string;
  priority : Z;
  status : JobStatus;
  createdAt : Z;
  updatedAt : Z;
  inData : option string;
  outData : option string;
  job_worker : option Z      (* ManyToOne JobWorker: the owner's id *)
}.

Definition set_job_worker (w : option Z) (j : t) : t :=
  mk (id j) (name j) (priority j) (status j) (createdAt j) (updatedAt j)
     (inData j) (outData j) w.

Definition set_status (st : JobStatus) (j : t) : t :=
  mk (id j) (name j) (priority j) st (createdAt j) (updatedAt j)
     (inData j) (outData j) (job_worker j).

Definition set_updatedAt (u : Z) (j : t) : t :=
  mk (id j) (name j) (priority j) (status j) (createdAt j) u
     (inData j) (outData j) (job_worker j).
End Job.

Module LogMessage.
Record t : Type := mk {
  id : Z;
  text : string;
  createdAt : Z;
  updatedAt : Z;
  job_worker : Z;            (* ManyToOne JobWorker *)
  job : Z                    (* ManyToOne Job *)
}.
End LogMessage.

(** ** The database *)

Record Store : Type := mkStore {
  workers : list JobWorker.t;
  jobs : list Job.t;
  log_messages : list LogMessage.t;
  seq_workers : Z;
  seq_jobs : Z;
  seq_log_messages : Z
}.

Definition empty_store : Store := mkStore [] [] [] 0 0 0.

(** ** Errors and settled promises *)

Record ApolloError : Type := mkApolloError {
  message : string;
  code : option string
}.

Inductive Outcome (A : Type) : Type :=
| Fulfilled (a : A)
| Rejected (e : ApolloError).
Arguments Fulfilled {A} a.
Arguments Rejected {A} e.

Definition Async (A : Type) : Type := Store -> Outcome A * Store.

Definition ret {A} (a : A) : Async A := fun s => (Fulfilled a, s).

Definition throw {A} (e : ApolloError) : Async A := fun s => (Rejected e, s).

Definition bind {A B} (c : Async A) (k : A -> Async B) : Async B :=
  fun s =>
    match c s with
    | (Fulfilled a, s') => k a s'
    | (Rejected e, s') => (Rejected e, s')
    end.

Notation "x <- c ;; k" := (bind c (fun x => k))
  (at level 61, c at next level, right associativity).

(** ** Repository operations (TypeORM) *)

(** [findOne(id)] on each table. *)
Definition JobWorker_findOne (i : Z) : Async (option JobWorker.t) :=
  fun s => (Fulfilled (find (fun w => JobWorker.id w =? i) (workers s)), s).

Definition Job_findOne (i : Z) : Async (option Job.t) :=
  fun s => (Fulfilled (find (fun j => Job.id j =? i) (jobs s)), s).

(** [findOne(Job, { where: { status }, relations })] with no [order]
    option: the first matching row of the table.  (With joined relations
    TypeORM limits the result by ascending primary key, and a plain scan of
    an SQLite table runs in rowid order; rows are stored here in that
    order.) *)
Definition Job_findOne_where_status (st : JobStatus) : Async (option Job.t) :=
  fun s => (Fulfilled (find (fun j => JobStatus_eqb (Job.status j) st) (jobs s)), s).

(** [save()] of an entity that was loaded from the table: the row with its
    id is rewritten and the UpdateDateColumn is stamped. *)
Definition Job_update_row (j : Job.t) (rows : list Job.t) : list Job.t :=
  map (fun r => if Job.id r =? Job.id j then j else r) rows.

Definition Job_save (j : Job.t) (now : Z) : Async Job.t :=
  fun s =>
    let j' := Job.set_updatedAt now j in
    (Fulfilled j',
     mkStore (workers s) (Job_update_row j' (jobs s)) (log_messages s)
             (seq_workers s) (seq_jobs s) (seq_log_messages s)).

(** [create({...})] followed by [save()] of the fresh entity: a new row with
    the next generated id and both date columns stamped. *)
Definition JobWorker_insert (name : string) (now : Z) : Async JobWorker.t :=
  fun s =>
    let i := seq_workers s + 1 in
    let w := JobWorker.mk i name now now in
    (Fulfilled w,
     mkStore (workers s ++ [w])%list (jobs s) (log_messages s)
             i (seq_jobs s) (seq_log_messages s)).

Definition Job_insert (priority : Z) (inData : option string)
    (status : JobStatus) (name : string) (now : Z) : Async Job.t :=
  fun s =>
    let i := seq_jobs s + 1 in
    let j := Job.mk i name priority status now now inData None None in
    (Fulfilled j,
     mkStore (workers s) (jobs s ++ [j])%list (log_messages s)
             (seq_workers s) i (seq_log_messages s)).

Definition LogMessage_insert (text : string) (job : Job.t)
    (job_worker : JobWorker.t) (now : Z) : Async LogMessage.t :=
  fun s =>
    let i := seq_log_messages s + 1 in
    let m := LogMessage.mk i text now now (JobWorker.id job_worker) (Job.id job) in
    (Fulfilled m,
     mkStore (workers s) (jobs s) (log_messages s ++ [m])%list
             (seq_workers s) (seq_jobs s) i).

(** A row with the relations ["log_messages"] and ["job_worker"] loaded. *)
Definition Job_relations (s : Store) (j : Job.t)
  : Job.t * list LogMessage.t * option JobWorker.t :=
  (j,
   filter (fun m => LogMessage.job m =? Job.id j) (log_messages s),
   match Job.job_worker j with
   | None => None
   | Some i => find (fun w => JobWorker.id w =? i) (workers s)
   end).

Definition LogMessage_relations (s : Store) (m : LogMessage.t)
  : LogMessage.t * option Job.t * option JobWorker.t :=
  (m,
   find (fun j => Job.id j =? LogMessage.job m) (jobs s),
   find (fun w => JobWorker.id w =? LogMessage.job_worker m) (workers s)).

(** ** class JobsResolver *)

Module JobsResolver.

Definition jobs : Async (list (Job.t * list LogMessage.t * option JobWorker.t)) :=
  fun s => (Fulfilled (map (Job_relations s) (jobs s)), s).

(** The transaction body either rejects the outer promise (no worker),
    resolves it with [null] (no waiting job) or resolves it with the saved
    job; [if (job) return job] turns [null] into no result. *)
Definition getJob (data : GetJobInput.t) (now : Z) : Async (option Job.t) :=
  job_worker <- JobWorker_findOne (GetJobInput.workerId data) ;;
  match job_worker with
  | None =>
      throw (mkApolloError
               ("JobWorker " ++ show_number (GetJobInput.workerId data) ++ " not found")
               None)
  | Some job_worker =>
      job <- Job_findOne_where_status waiting ;;
      match job with
      | None => ret None
      | Some job =>
          let job := Job.set_job_worker (Some (JobWorker.id job_worker)) job in
          let job := Job.set_status running job in
          job <- Job_save job now ;;
          ret (Some job)
      end
  end.

Definition createJobWorker (data : CreateJobWorkerInput.t) (now : Z)
  : Async JobWorker.t :=
  JobWorker_insert (CreateJobWorkerInput.name data) now.

Definition createJob (data : CreateJobInput.t) (now : Z) : Async Job.t :=
  Job_insert (js_or (CreateJobInput.priority data) 1000)
             (CreateJobInput.inData data)
             waiting
             (CreateJobInput.name data)
             now.

Definition logMessages
  : Async (list (LogMessage.t * option Job.t * option JobWorker.t)) :=
  fun s => (Fulfilled (map (LogMessage_relations s) (log_messages s)), s).

Definition createLogMessage (data : CreateLogMessageInput.t) (now : Z)
  : Async LogMessage.t :=
  job <- Job_findOne (CreateLogMessageInput.jobId data) ;;
  jobWorker <- JobWorker_findOne (CreateLogMessageInput.workerId data) ;;
  match job with
  | None =>
      throw (mkApolloError
               ("Job " ++ show_number (CreateLogMessageInput.jobId data) ++ " not found")
               (Some "404"))
  | Some job =>
      match jobWorker with
      | None =>
          throw (mkApolloError
                   ("Worker " ++ show_number (CreateLogMessageInput.workerId data)
                              ++ " not found")
                   (Some "404"))
      | Some jobWorker =>
          LogMessage_insert (CreateLogMessageInput.text data) job jobWorker now
      end
  end.

End JobsResolver.

(** ** The schema built from the resolver: every field a client can call *)

Inductive Request : Type :=
| Query_jobs
| Query_logMessages
| Mutation_getJob (data : GetJobInput.t)
| Mutation_createJobWorker (data : CreateJobWorkerInput.t)
| Mutation_createJob (data : CreateJobInput.t)
| Mutation_createLogMessage (data : CreateLogMessageInput.t).

Inductive Response : Type :=
| Data_jobs (l : list (Job.t * list LogMessage.t * option JobWorker.t))
| Data_logMessages (l : list (LogMessage.t * option Job.t * option JobWorker.t))
| Data_getJob (j : option Job.t)
| Data_createJobWorker (w : JobWorker.t)
| Data_createJob (j : Job.t)
| Data_createLogMessage (m : LogMessage.t).

Definition execute (r : Request) (now : Z) : Async Response :=
  match r with
  | Query_jobs => x <- JobsResolver.jobs ;; ret (Data_jobs x)
  | Query_logMessages => x <- JobsResolver.logMessages ;; ret (Data_logMessages x)
  | Mutation_getJob d => x <- JobsResolver.getJob d now ;; ret (Data_getJob x)
  | Mutation_createJobWorker d =>
      x <- JobsResolver.createJobWorker d now ;; ret (Data_createJobWorker x)
  | Mutation_createJob d => x <- JobsResolver.createJob d now ;; ret (Data_createJob x)
  | Mutation_createLogMessage d =>
      x <- JobsResolver.createLogMessage d now ;; ret (Data_createLogMessage x)
  end.

(** The store after serving a list of requests, each with its timestamp. *)
Fixpoint serve (rs : list (Request * Z)) (s : Store) : Store :=
  match rs with
  | [] => s
  | (r, now) :: rs' => serve rs' (snd (execute r now s))
  end.

(** ** Predicates on stores *)

Definition worker_exists (s : Store) (i : Z) : Prop :=
  exists w, In w (workers s) /\ JobWorker.id w = i.

Definition job_exists (s : Store) (i : Z) : Prop :=
  exists j, In j (jobs s) /\ Job.id j = i.

Definition some_job_waiting (s : Store) : Prop :=
  exists j, In j (jobs s) /\ Job.status j = waiting.

(** Generated identifiers: the rows of the jobs table carry strictly
    increasing ids, all positive and none above the table's counter. *)
Fixpoint ids_ascending (lo : Z) (rows : list Job.t) (hi : Z) : Prop :=
  match rows with
  | [] => lo <= hi
  | j :: rows' => lo < Job.id j /\ ids_ascending (Job.id j) rows' hi
  end.

Definition jobs_wf (s : Store) : Prop := ids_ascending 0 (jobs s) (seq_jobs s).

(** ** The Job invariants of the data model *)

Inductive lifecycle_step : JobStatus -> JobStatus -> Prop :=
| lifecycle_stay : forall st, lifecycle_step st st
| lifecycle_claim : lifecycle_step waiting running
| lifecycle_complete : lifecycle_step running finished.

Definition owner_iff_claimed (j : Job.t) : Prop :=
  Job.job_worker j <> None <-> (Job.status j = running \/ Job.status j = finished).

Definition job_evolves (j j' : Job.t) : Prop :=
  Job.id j' = Job.id j /\
  lifecycle_step (Job.status j) (Job.status j') /\
  Job.priority j' = Job.priority j /\
  Job.inData j' = Job.inData j.

Definition job_fresh (j : Job.t) : Prop :=
  Job.status j = waiting /\ Job.job_worker j = None.

(** The row [getJob] writes for the waiting row [j] it picked. *)
Definition claimed (j : Job.t) (owner : Z) (now : Z) : Job.t :=
  Job.mk (Job.id j) (Job.name j) (Job.priority j) running (Job.createdAt j) now
         (Job.inData j) (Job.outData j) (Some owner).

(** How one request may change the jobs table. *)
Inductive table_step (now : Z) (rows : list Job.t) : list Job.t -> Prop :=
| table_same : table_step now rows rows
| table_insert : forall j,
    job_fresh j -> Job.outData j = None ->
    table_step now rows (rows ++ [j])%list
| table_claim : forall l1 j l2 owner,
    rows = (l1 ++ j :: l2)%list -> Job.status j = waiting ->
    table_step now rows (l1 ++ claimed j owner now :: l2)%list.

(** ** The selection order the specification asks for *)

(** Ascending priority value, then earliest creation timestamp, then
    ascending identifier. *)
Definition spec_precedes (a b : Job.t) : bool :=
  (Job.priority a <? Job.priority b)
  || ((Job.priority a =? Job.priority b)
      && ((Job.createdAt a <? Job.createdAt b)
          || ((Job.createdAt a =? Job.createdAt b) && (Job.id a <=? Job.id b)))).

Definition spec_least_waiting (rows : list Job.t) (j : Job.t) : Prop :=
  In j rows /\ Job.status j = waiting /\
  forall k, In k rows -> Job.status k = waiting -> spec_precedes j k = true.

(** The selection policy as the specification words it. *)
Definition spec_selection_policy : Prop :=
  forall s data now,
    jobs_wf s ->
    worker_exists s (GetJobInput.workerId data) ->
    some_job_waiting s ->
    exists j j',
      spec_least_waiting (jobs s) j /\
      fst (JobsResolver.getJob data now s) = Fulfilled (Some j') /\
      Job.id j' = Job.id j.

(** The completion operation as the specification words it: some request
    that, on a running job, leaves it finished with the payload recorded. *)
Definition spec_exposes_CompleteJob : Prop :=
  exists CompleteJob : Z -> option string -> Request,
    forall s now jobId outData j,
      jobs_wf s ->
      In j (jobs s) -> Job.id j = jobId -> Job.status j = running ->
      exists j',
        In j' (jobs (snd (execute (CompleteJob jobId outData) now s))) /\
        Job.id j' = jobId /\
        Job.status j' = finished /\
        Job.outData j' = outData.

(** The creation contract as the specification words it: the stored
    priority is the supplied one, and 1000 when none is supplied. *)
Definition spec_priority (p : option Z) : Z :=
  match p with
  | Some v => v
  | None => 1000
  end.

(** The kind of failure the specification calls NotFound: the error names
    the entity kind and the identifier that is missing. *)
Definition NotFound (entity : string) (i : Z) (e : ApolloError) : Prop :=
  message e = entity ++ " " ++ show_number i ++ " not found".

(** The error [getJob] rejects with, and a store with its jobs table
    replaced. *)
Definition worker_not_found (i : Z) : ApolloError :=
  mkApolloError ("JobWorker " ++ show_number i ++ " not found") None.

Definition with_jobs (rows : list Job.t) (s : Store) : Store :=
  mkStore (workers s) rows (log_messages s)
          (seq_workers s) (seq_jobs s) (seq_log_messages s).

(** ** Primary keys and references *)

(** Generated identifiers of any table, as the list of its key column. *)
Fixpoint keys_ascending (lo : Z) (keys : list Z) (hi : Z) : Prop :=
  match keys with
  | [] => lo <= hi
  | k :: keys' => lo < k /\ keys_ascending k keys' hi
  end.

Definition workers_wf (s : Store) : Prop :=
  keys_ascending 0 (map JobWorker.id (workers s)) (seq_workers s).

Definition log_messages_wf (s : Store) : Prop :=
  keys_ascending 0 (map LogMessage.id (log_messages s)) (seq_log_messages s).

Definition store_wf (s : Store) : Prop :=
  jobs_wf s /\ workers_wf s /\ log_messages_wf s.

(** The foreign keys of the schema: a log message points at a job and a
    worker of the store, a job's owner at a worker of the store. *)
Definition references_ok (s : Store) : Prop :=
  (forall m, In m (log_messages s) ->
     job_exists s (LogMessage.job m) /\ worker_exists s (LogMessage.job_worker m)) /\
  (forall j i, In j (jobs s) -> Job.job_worker j = Some i -> worker_exists s i).

(** What holds of every job the resolver ever stores: it is waiting or
    running, has no output payload, a priority other than 0, and an owner
    exactly when it is running. *)
Definition job_sound (j : Job.t) : Prop :=
  (Job.status j = waiting \/ Job.status j = running) /\
  Job.outData j = None /\
  Job.priority j <> 0 /\
  (Job.job_worker j <> None <-> Job.status j = running).

(** The number of rows a worker can still claim. *)
Definition count_waiting (rows : list Job.t) : nat :=
  List.length (filter (fun j => JobStatus_eqb (Job.status j) waiting) rows).

(** [n] claims in a row by the same worker, the clock ticking from [now]. *)
Fixpoint claim_times (n : nat) (data : GetJobInput.t) (now : Z) (s : Store) : Store :=
  match n with
  | O => s
  | S n' => claim_times n' data (now + 1) (snd (JobsResolver.getJob data now s))
  end.

(** ** Sample stores *)

Definition sample_worker : JobWorker.t := JobWorker.mk 1 "w1" 10 10.

Definition sample_job (i priority : Z) (st : JobStatus) (owner : option Z) : Job.t :=
  Job.mk i "build" priority st (10 + i) (10 + i) None None owner.

(** One worker; job 1 with priority 10 and job 2 with priority 5, both
    waiting. *)
Definition sample_store : Store :=
  mkStore [sample_worker]
          [sample_job 1 10 waiting None; sample_job 2 5 waiting None]
          [] 1 2 0.

(** One worker that owns the running job 1. *)
Definition running_store : Store :=
  mkStore [sample_worker] [sample_job 1 10 running (Some 1)] [] 1 1 0.

(** * Proofs *)

(** ** Lookups *)

Lemma JobStatus_eqb_eq (a b : JobStatus) : JobStatus_eqb a b = true <-> a = b.
Proof.
  unfold JobStatus_eqb; split.
  - destruct a, b; simpl; intros H; try reflexivity; discriminate H.
  - intros ->; apply Z.eqb_refl.
Qed.

Section Lookup.
Context {A : Type} (key : A -> Z).

Lemma find_key_none (i : Z) (l : list A) :
  (forall a, In a l -> key a <> i) ->
  find (fun a => key a =? i) l = None.
Proof.
  induction l as [|a l IH]; simpl; intros H; [reflexivity|].
  destruct (Z.eqb_spec (key a) i) as [E|_].
  - exfalso; apply (H a); auto.
  - apply IH; intros b Hb; apply H; auto.
Qed.

Lemma find_key_some (i : Z) (l : list A) :
  (exists a, In a l /\ key a = i) ->
  exists a, find (fun a => key a =? i) l = Some a /\ In a l /\ key a = i.
Proof.
  induction l as [|a l IH]; simpl; intros [b [Hb E]]; [contradiction|].
  destruct (Z.eqb_spec (key a) i) as [Ea|Na].
  - exists a; auto.
  - destruct Hb as [->|Hb]; [contradiction|].
    destruct IH as [c [Hc [Hin Ec]]]; [exists b; auto|].
    exists c; auto.
Qed.
End Lookup.

Lemma find_waiting_none (rows : list Job.t) :
  (forall j, In j rows -> Job.status j <> waiting) ->
  find (fun j => JobStatus_eqb (Job.status j) waiting) rows = None.
Proof.
  induction rows as [|a rows IH]; simpl; intros H; [reflexivity|].
  destruct (JobStatus_eqb (Job.status a) waiting) eqn:E.
  - apply JobStatus_eqb_eq in E; exfalso; apply (H a); auto.
  - apply IH; intros j Hj; apply H; auto.
Qed.

Lemma find_waiting_some (rows : list Job.t) :
  (exists j, In j rows /\ Job.status j = waiting) ->
  exists j, find (fun j => JobStatus_eqb (Job.status j) waiting) rows = Some j.
Proof.
  intros [k [Hk Ek]].
  destruct (find _ rows) as [j|] eqn:F; [eauto|].
  apply (find_none _ _ F) in Hk.
  apply (proj2 (JobStatus_eqb_eq _ _)) in Ek; congruence.
Qed.

(** ** Generated identifiers *)

Lemma ids_ascending_bound lo rows hi :
  ids_ascending lo rows hi -> lo <= hi.
Proof.
  revert lo; induction rows as [|a rows IH]; simpl; intros lo H; [exact H|].
  destruct H as [H1 H2]; apply IH in H2; lia.
Qed.

Lemma ids_ascending_In lo rows hi j :
  ids_ascending lo rows hi -> In j rows -> lo < Job.id j <= hi.
Proof.
  revert lo; induction rows as [|a rows IH]; simpl; intros lo H Hj; [contradiction|].
  destruct H as [H1 H2]; destruct Hj as [->|Hj].
  - apply ids_ascending_bound in H2; lia.
  - specialize (IH _ H2 Hj); lia.
Qed.

Lemma ids_ascending_insert lo rows hi j :
  ids_ascending lo rows hi -> Job.id j = hi + 1 ->
  ids_ascending lo (rows ++ [j]) (hi + 1).
Proof.
  revert lo; induction rows as [|a rows IH]; simpl; intros lo H E.
  - lia.
  - destruct H as [H1 H2]; split; [exact H1|]; apply IH; assumption.
Qed.

Lemma ids_ascending_update lo rows hi j :
  ids_ascending lo rows hi -> ids_ascending lo (Job_update_row j rows) hi.
Proof.
  revert lo; induction rows as [|a rows IH]; simpl; intros lo H; [exact H|].
  destruct H as [H1 H2].
  destruct (Z.eqb_spec (Job.id a) (Job.id j)) as [E|N].
  - rewrite <- E; split; [exact H1|]; apply IH; exact H2.
  - split; [exact H1|]; apply IH; exact H2.
Qed.

(** The first row a query finds has the least id among the rows that
    satisfy it. *)
Lemma find_first_least (p : Job.t -> bool) lo rows hi j k :
  ids_ascending lo rows hi ->
  find p rows = Some j -> In k rows -> p k = true -> Job.id j <= Job.id k.
Proof.
  revert lo; induction rows as [|a rows IH]; simpl; intros lo H F Hk Pk; [contradiction|].
  destruct H as [H1 H2].
  destruct (p a) eqn:Pa.
  - injection F as <-.
    destruct Hk as [->|Hk]; [lia|].
    pose proof (ids_ascending_In _ _ _ _ H2 Hk); lia.
  - destruct Hk as [->|Hk]; [congruence|].
    eapply IH; eauto.
Qed.

(** Rewriting the row found by a query changes that row and no other. *)
Lemma update_row_split lo rows hi j :
  ids_ascending lo rows hi -> In j rows ->
  exists l1 l2,
    rows = (l1 ++ j :: l2)%list /\
    forall j', Job.id j' = Job.id j ->
               Job_update_row j' rows = (l1 ++ j' :: l2)%list.
Proof.
  revert lo; induction rows as [|a rows IH]; simpl; intros lo H Hj; [contradiction|].
  destruct H as [H1 H2].
  destruct Hj as [->|Hj].
  - exists [], rows; split; [reflexivity|].
    intros j' E; simpl; rewrite E, Z.eqb_refl; f_equal.
    unfold Job_update_row.
    rewrite <- (map_id rows) at 2; apply map_ext_in.
    intros r Hr; pose proof (ids_ascending_In _ _ _ _ H2 Hr).
    destruct (Z.eqb_spec (Job.id r) (Job.id j')); [lia|reflexivity].
  - destruct (IH _ H2 Hj) as [l1 [l2 [E U]]].
    exists (a :: l1), l2; split; [simpl; congruence|].
    intros j' Ej; simpl.
    pose proof (ids_ascending_In _ _ _ _ H2 Hj).
    destruct (Z.eqb_spec (Job.id a) (Job.id j')); [lia|].
    f_equal; apply U; exact Ej.
Qed.

(** ** What [getJob] computes *)

Lemma getJob_run data now s :
  JobsResolver.getJob data now s =
  match find (fun w => JobWorker.id w =? GetJobInput.workerId data) (workers s) with
  | None => (Rejected (worker_not_found (GetJobInput.workerId data)), s)
  | Some w =>
      match find (fun j => JobStatus_eqb (Job.status j) waiting) (jobs s) with
      | None => (Fulfilled None, s)
      | Some j =>
          (Fulfilled (Some (claimed j (JobWorker.id w) now)),
           with_jobs (Job_update_row (claimed j (JobWorker.id w) now) (jobs s)) s)
      end
  end.
Proof.
  unfold JobsResolver.getJob, bind, JobWorker_findOne, Job_findOne_where_status; simpl.
  destruct (find _ (workers s)) as [w|]; [|reflexivity].
  destruct (find _ (jobs s)) as [j|]; reflexivity.
Qed.

(** A claim that returns a job picked a waiting row of a known worker. *)
Lemma getJob_returns data now s j' :
  fst (JobsResolver.getJob data now s) = Fulfilled (Some j') ->
  exists w j,
    In w (workers s) /\ JobWorker.id w = GetJobInput.workerId data /\
    In j (jobs s) /\ Job.status j = waiting /\
    find (fun j => JobStatus_eqb (Job.status j) waiting) (jobs s) = Some j /\
    j' = claimed j (GetJobInput.workerId data) now /\
    snd (JobsResolver.getJob data now s) = with_jobs (Job_update_row j' (jobs s)) s.
Proof.
  rewrite getJob_run.
  destruct (find _ (workers s)) as [w|] eqn:Fw; [|discriminate].
  destruct (find _ (jobs s)) as [j|] eqn:Fj; [|discriminate].
  simpl; intros H; injection H as <-.
  apply find_some in Fw; destruct Fw as [Hw Ew]; apply Z.eqb_eq in Ew.
  pose proof (find_some _ _ Fj) as [Hj Ej]; apply JobStatus_eqb_eq in Ej.
  exists w, j; rewrite Ew; auto 10.
Qed.

(** ** How a request changes the jobs table *)

Lemma getJob_table_step data now s :
  jobs_wf s ->
  table_step now (jobs s) (jobs (snd (JobsResolver.getJob data now s))).
Proof.
  intros W; rewrite getJob_run.
  destruct (find _ (workers s)) as [w|]; [|apply table_same].
  destruct (find _ (jobs s)) as [j|] eqn:Fj; [|apply table_same].
  apply find_some in Fj; destruct Fj as [Hj Ej]; apply JobStatus_eqb_eq in Ej.
  destruct (update_row_split _ _ _ _ W Hj) as [l1 [l2 [E U]]].
  simpl; rewrite (U (claimed j (JobWorker.id w) now) eq_refl).
  eapply table_claim; eauto.
Qed.

Lemma createLogMessage_jobs data now s :
  jobs (snd (JobsResolver.createLogMessage data now s)) = jobs s.
Proof.
  unfold JobsResolver.createLogMessage, bind, Job_findOne, JobWorker_findOne; simpl.
  destruct (find _ (jobs s)); [|reflexivity].
  destruct (find _ (workers s)); reflexivity.
Qed.

Lemma execute_table_step r now s :
  jobs_wf s -> table_step now (jobs s) (jobs (snd (execute r now s))).
Proof.
  intros W; destruct r as [| |d|d|d|d]; unfold execute, bind.
  - apply table_same.
  - apply table_same.
  - pose proof (getJob_table_step d now s W) as T.
    destruct (JobsResolver.getJob d now s) as [[x|e] s']; exact T.
  - apply table_same.
  - simpl; apply table_insert; [split; reflexivity | reflexivity].
  - pose proof (createLogMessage_jobs d now s) as E.
    destruct (JobsResolver.createLogMessage d now s) as [[x|e] s']; simpl in *;
      rewrite E; apply table_same.
Qed.

Lemma getJob_seq_jobs data now s :
  seq_jobs (snd (JobsResolver.getJob data now s)) = seq_jobs s.
Proof.
  rewrite getJob_run.
  destruct (find _ (workers s)); [|reflexivity].
  destruct (find _ (jobs s)); reflexivity.
Qed.

Lemma execute_jobs_wf r now s :
  jobs_wf s -> jobs_wf (snd (execute r now s)).
Proof.
  unfold jobs_wf; intros W; destruct r as [| |d|d|d|d]; unfold execute, bind.
  - exact W.
  - exact W.
  - pose proof (getJob_seq_jobs d now s) as Q.
    assert (U : ids_ascending 0 (jobs (snd (JobsResolver.getJob d now s))) (seq_jobs s)).
    { rewrite getJob_run.
      destruct (find _ (workers s)); [|exact W].
      destruct (find _ (jobs s)); [|exact W].
      simpl; apply ids_ascending_update; exact W. }
    destruct (JobsResolver.getJob d now s) as [[x|e] s']; simpl in *; rewrite Q; exact U.
  - exact W.
  - simpl; apply ids_ascending_insert; [exact W | reflexivity].
  - unfold JobsResolver.createLogMessage, bind, Job_findOne, JobWorker_findOne; simpl.
    destruct (find _ (jobs s)); [|exact W].
    destruct (find _ (workers s)); exact W.
Qed.

Lemma serve_jobs_wf rs s : jobs_wf s -> jobs_wf (serve rs s).
Proof.
  revert s; induction rs as [|[r now] rs IH]; simpl; intros s W; [exact W|].
  apply IH, execute_jobs_wf, W.
Qed.

Lemma empty_store_wf : jobs_wf empty_store.
Proof. unfold jobs_wf; simpl; lia. Qed.

(** Every store the server can reach from an empty database is
    well-formed. *)
Lemma reachable_jobs_wf rs : jobs_wf (serve rs empty_store).
Proof. apply serve_jobs_wf, empty_store_wf. Qed.

(** The sample stores are states of the running server. *)
Lemma sample_store_reachable :
  sample_store =
  serve [(Mutation_createJobWorker (CreateJobWorkerInput.mk "w1"), 10);
         (Mutation_createJob (CreateJobInput.mk "build" None (Some 10)), 11);
         (Mutation_createJob (CreateJobInput.mk "build" None (Some 5)), 12)]
        empty_store.
Proof. reflexivity. Qed.

Lemma running_store_reachable :
  running_store =
  serve [(Mutation_createJobWorker (CreateJobWorkerInput.mk "w1"), 10);
         (Mutation_createJob (CreateJobInput.mk "build" None (Some 10)), 11);
         (Mutation_getJob (GetJobInput.mk 1), 11)]
        empty_store.
Proof. reflexivity. Qed.

Lemma table_step_evolves now rows rows' :
  table_step now rows rows' ->
  exists kept added,
    rows' = (kept ++ added)%list /\
    Forall2 job_evolves rows kept /\
    Forall job_fresh added.
Proof.
  assert (R : forall l, Forall2 job_evolves l l).
  { induction l as [|a l IH]; constructor; [|exact IH].
    repeat split; constructor. }
  intros [|j F O|l1 j l2 owner E Wt].
  - exists rows, []; rewrite app_nil_r; auto.
  - exists rows, [j]; auto.
  - exists (l1 ++ claimed j owner now :: l2)%list, []; rewrite app_nil_r.
    split; [reflexivity|]; split; [|constructor].
    subst rows; apply Forall2_app; [apply R|].
    constructor; [|apply R].
    repeat split; simpl; rewrite Wt; constructor.
Qed.

Lemma table_step_owner now rows rows' :
  table_step now rows rows' ->
  Forall owner_iff_claimed rows -> Forall owner_iff_claimed rows'.
Proof.
  intros [|j [Fs Fw] O|l1 j l2 owner E Wt] H.
  - exact H.
  - apply Forall_app; split; [exact H|].
    constructor; [|constructor].
    unfold owner_iff_claimed; rewrite Fs, Fw; split.
    + intros C; exfalso; apply C; reflexivity.
    + intros [C|C]; discriminate C.
  - subst rows; apply Forall_app in H; destruct H as [H1 H2].
    apply Forall_app; split; [exact H1|].
    inversion H2 as [|? ? _ H3]; subst.
    constructor; [|exact H3].
    unfold owner_iff_claimed; simpl; split; [auto | discriminate].
Qed.

Lemma table_step_completion now rows rows' j' :
  table_step now rows rows' -> In j' rows' ->
  (Job.status j' = finished ->
   exists j, In j rows /\ Job.id j = Job.id j' /\ Job.status j = finished) /\
  (forall o, Job.outData j' = Some o ->
   exists j, In j rows /\ Job.id j = Job.id j' /\ Job.outData j = Some o).
Proof.
  intros [|j [Fs Fw] O|l1 j l2 owner E Wt] Hj.
  - split; [intros S | intros o S]; exists j'; auto.
  - apply in_app_or in Hj; destruct Hj as [Hj|[<-|[]]].
    + split; [intros S | intros o S]; exists j'; auto.
    + split; [intros S | intros o S]; congruence.
  - subst rows; apply in_app_or in Hj; destruct Hj as [Hj|[<-|Hj]].
    + split; [intros S | intros o S]; exists j'; auto using in_or_app.
    + split; [intros S; discriminate S | intros o S].
      exists j; simpl in S; auto using in_or_app, in_eq.
    + split; [intros S | intros o S]; exists j'; auto using in_or_app, in_cons.
Qed.

(** A job that has left the waiting state is never rewritten again: later
    claims pass it by. *)
Lemma claimed_job_stays r now s j :
  jobs_wf s -> In j (jobs s) -> Job.status j <> waiting ->
  In j (jobs (snd (execute r now s))).
Proof.
  intros W Hj N.
  destruct (execute_table_step r now s W) as [|k F O|l1 k l2 owner E Wt].
  - exact Hj.
  - apply in_or_app; left; exact Hj.
  - rewrite E in Hj; apply in_app_or in Hj; apply in_or_app.
    destruct Hj as [Hj|[<-|Hj]]; [left; exact Hj | contradiction | right; right; exact Hj].
Qed.

(** Every failure the resolver raises is one of its three not-found
    errors. *)
Lemma execute_rejections r now s e :
  fst (execute r now s) = Rejected e ->
  exists i, NotFound "JobWorker" i e \/ NotFound "Job" i e \/ NotFound "Worker" i e.
Proof.
  destruct r as [| |d|d|d|d]; unfold execute, bind; try discriminate.
  - rewrite getJob_run.
    destruct (find _ (workers s)).
    + destruct (find _ (jobs s)); discriminate.
    + simpl; intros H; injection H as <-.
      exists (GetJobInput.workerId d); left; reflexivity.
  - unfold JobsResolver.createLogMessage, bind, Job_findOne, JobWorker_findOne; simpl.
    destruct (find _ (jobs s)).
    + destruct (find _ (workers s)); simpl; [discriminate|].
      intros H; injection H as <-.
      exists (CreateLogMessageInput.workerId d); right; right; reflexivity.
    + simpl; intros H; injection H as <-.
      exists (CreateLogMessageInput.jobId d); right; left; reflexivity.
Qed.

(** What [createJob] stores, for every input. *)
Lemma createJob_creates data now s :
  exists j,
    JobsResolver.createJob data now s = (Fulfilled j, snd (JobsResolver.createJob data now s)) /\
    jobs (snd (JobsResolver.createJob data now s)) = (jobs s ++ [j])%list /\
    Job.id j = seq_jobs s + 1 /\
    Job.name j = CreateJobInput.name data /\
    Job.inData j = CreateJobInput.inData data /\
    Job.status j = waiting /\
    Job.job_worker j = None /\
    Job.priority j = js_or (CreateJobInput.priority data) 1000.
Proof.
  eexists; unfold JobsResolver.createJob, Job_insert; simpl.
  repeat split; reflexivity.
Qed.

(** Away from priority 0 the stored priority is the one the specification
    asks for. *)
Lemma js_or_spec_priority (p : option Z) :
  p <> Some 0 -> js_or p 1000 = spec_priority p.
Proof.
  destruct p as [v|]; simpl; [|reflexivity].
  intros H; destruct (Z.eqb_spec v 0) as [->|_]; [congruence | reflexivity].
Qed.

(** * The claims *)

Lemma sample_store_wf : jobs_wf sample_store.
Proof. unfold jobs_wf; simpl; lia. Qed.

Lemma sample_worker_exists : worker_exists sample_store 1.
Proof. exists sample_worker; split; [left|]; reflexivity. Qed.

Lemma sample_store_waiting : some_job_waiting sample_store.
Proof. exists (sample_job 1 10 waiting None); split; [left|]; reflexivity. Qed.

(** C1, as stated, fails: in [sample_store] job 2 has the lower priority
    value, yet the claim of worker 1 returns job 1. *)
Lemma getJob_ignores_priority : ~ spec_selection_policy.
Proof.
  intros P.
  destruct (P sample_store (GetJobInput.mk 1) 20
              sample_store_wf sample_worker_exists sample_store_waiting)
    as [j [j' [[Hj [_ L]] [R E]]]].
  injection R as <-; simpl in E.
  destruct Hj as [<-|[<-|[]]]; [|discriminate E].
  specialize (L (sample_job 2 5 waiting None) (or_intror (or_introl eq_refl)) eq_refl).
  discriminate L.
Qed.

(** C1 (amended): when a worker that exists claims and some job is waiting,
    [getJob] returns the waiting job with the least identifier; priority
    and creation timestamp play no part in the choice. *)
Theorem getJob_selects_least_id s data now :
  jobs_wf s ->
  worker_exists s (GetJobInput.workerId data) ->
  some_job_waiting s ->
  exists j j',
    In j (jobs s) /\ Job.status j = waiting /\
    (forall k, In k (jobs s) -> Job.status k = waiting -> Job.id j <= Job.id k) /\
    fst (JobsResolver.getJob data now s) = Fulfilled (Some j') /\
    Job.id j' = Job.id j.
Proof.
  intros W Hw Hj.
  apply (find_key_some JobWorker.id) in Hw; destruct Hw as [w [Fw _]].
  apply find_waiting_some in Hj; destruct Hj as [j Fj].
  pose proof (find_some _ _ Fj) as [Hin Ej]; apply JobStatus_eqb_eq in Ej.
  exists j, (claimed j (JobWorker.id w) now); repeat split; auto.
  - intros k Hk Ek; eapply find_first_least; eauto.
    apply JobStatus_eqb_eq; exact Ek.
  - rewrite getJob_run, Fw, Fj; reflexivity.
Qed.

Lemma getJob_selects_least_id_witness :
  exists j j',
    In j (jobs sample_store) /\ Job.status j = waiting /\
    (forall k, In k (jobs sample_store) -> Job.status k = waiting ->
               Job.id j <= Job.id k) /\
    fst (JobsResolver.getJob (GetJobInput.mk 1) 20 sample_store) = Fulfilled (Some j') /\
    Job.id j' = Job.id j.
Proof.
  apply (getJob_selects_least_id sample_store (GetJobInput.mk 1) 20).
  - unfold jobs_wf; simpl; lia.
  - exists sample_worker; split; [left|]; reflexivity.
  - exists (sample_job 1 10 waiting None); split; [left|]; reflexivity.
Defined.

(** C4: a claim by an existing worker that returns a job returns it with
    status running and owned by that worker; the returned row is a waiting
    row of the table with only status, owner and updatedAt rewritten, it
    takes that row's place, and nothing else in the store changes. *)
Theorem getJob_claims_for_worker s data now j' :
  jobs_wf s ->
  worker_exists s (GetJobInput.workerId data) ->
  fst (JobsResolver.getJob data now s) = Fulfilled (Some j') ->
  Job.status j' = running /\
  Job.job_worker j' = Some (GetJobInput.workerId data) /\
  exists l1 j l2,
    jobs s = (l1 ++ j :: l2)%list /\
    Job.status j = waiting /\
    Job.id j' = Job.id j /\ Job.name j' = Job.name j /\
    Job.priority j' = Job.priority j /\ Job.createdAt j' = Job.createdAt j /\
    Job.inData j' = Job.inData j /\ Job.outData j' = Job.outData j /\
    Job.updatedAt j' = now /\
    snd (JobsResolver.getJob data now s) = with_jobs (l1 ++ j' :: l2)%list s.
Proof.
  intros W _ R.
  destruct (getJob_returns _ _ _ _ R) as [w [j [_ [_ [Hj [Ej [_ [-> S]]]]]]]].
  split; [reflexivity|]; split; [reflexivity|].
  destruct (update_row_split _ _ _ _ W Hj) as [l1 [l2 [E U]]].
  exists l1, j, l2.
  rewrite S, (U (claimed j (GetJobInput.workerId data) now) eq_refl); simpl; auto 12.
Qed.

Lemma getJob_claims_for_worker_witness :
  Job.status (claimed (sample_job 1 10 waiting None) 1 20) = running /\
  Job.job_worker (claimed (sample_job 1 10 waiting None) 1 20) = Some 1.
Proof.
  pose proof (getJob_claims_for_worker sample_store (GetJobInput.mk 1) 20
                (claimed (sample_job 1 10 waiting None) 1 20)) as H.
  simpl in H.
  destruct H as [H1 [H2 _]].
  - unfold jobs_wf; simpl; lia.
  - exists sample_worker; split; [left|]; reflexivity.
  - reflexivity.
  - split; [exact H1 | exact H2].
Defined.

(** C5: a claim whose workerId matches no worker is rejected with the
    not-found error naming the JobWorker and the id (an ApolloError built
    without an error code), and the store (every job included) is left as
    it was. *)
Theorem getJob_unknown_worker s data now :
  ~ worker_exists s (GetJobInput.workerId data) ->
  exists e,
    JobsResolver.getJob data now s = (Rejected e, s) /\
    NotFound "JobWorker" (GetJobInput.workerId data) e /\
    code e = None.
Proof.
  intros N; exists (worker_not_found (GetJobInput.workerId data)).
  split; [|split; reflexivity].
  rewrite getJob_run, (find_key_none JobWorker.id); [reflexivity|].
  intros w Hw E; apply N; exists w; auto.
Qed.

Lemma getJob_unknown_worker_witness :
  exists e,
    JobsResolver.getJob (GetJobInput.mk 7) 20 sample_store = (Rejected e, sample_store) /\
    NotFound "JobWorker" 7 e /\
    code e = None.
Proof.
  apply (getJob_unknown_worker sample_store (GetJobInput.mk 7) 20).
  intros [w [[<-|[]] E]]; discriminate E.
Defined.

(** C6: when no job is waiting, a claim by an existing worker is fulfilled
    with no job and changes nothing; that outcome is a fulfilled promise,
    different from every rejection. *)
Theorem getJob_no_waiting s data now :
  worker_exists s (GetJobInput.workerId data) ->
  ~ some_job_waiting s ->
  JobsResolver.getJob data now s = (Fulfilled None, s) /\
  forall e, fst (JobsResolver.getJob data now s) <> Rejected e.
Proof.
  intros Hw N.
  apply (find_key_some JobWorker.id) in Hw; destruct Hw as [w [Fw _]].
  assert (E : JobsResolver.getJob data now s = (Fulfilled None, s)).
  { rewrite getJob_run, Fw, find_waiting_none; [reflexivity|].
    intros j Hj Ej; apply N; exists j; auto. }
  split; [exact E|]; rewrite E; discriminate.
Qed.

Lemma getJob_no_waiting_witness :
  JobsResolver.getJob (GetJobInput.mk 1) 20 running_store = (Fulfilled None, running_store) /\
  forall e, fst (JobsResolver.getJob (GetJobInput.mk 1) 20 running_store) <> Rejected e.
Proof.
  apply (getJob_no_waiting running_store (GetJobInput.mk 1) 20).
  - exists sample_worker; split; [left|]; reflexivity.
  - intros [j [[<-|[]] E]]; discriminate E.
Defined.

Lemma createLogMessage_run data now s :
  JobsResolver.createLogMessage data now s =
  match find (fun j => Job.id j =? CreateLogMessageInput.jobId data) (jobs s) with
  | None =>
      (Rejected (mkApolloError
                   ("Job " ++ show_number (CreateLogMessageInput.jobId data) ++ " not found")
                   (Some "404")), s)
  | Some j =>
      match find (fun w => JobWorker.id w =? CreateLogMessageInput.workerId data)
                 (workers s) with
      | None =>
          (Rejected (mkApolloError
                       ("Worker " ++ show_number (CreateLogMessageInput.workerId data)
                                  ++ " not found")
                       (Some "404")), s)
      | Some w => LogMessage_insert (CreateLogMessageInput.text data) j w now s
      end
  end.
Proof.
  unfold JobsResolver.createLogMessage, bind, Job_findOne, JobWorker_findOne, throw; simpl.
  destruct (find _ (jobs s)); [|reflexivity].
  destruct (find _ (workers s)); reflexivity.
Qed.

(** C7: [createLogMessage] checks both references.  A jobId that matches
    no job is rejected with the not-found error naming the Job; a workerId
    that matches no worker (the job being there) is rejected with the
    not-found error naming the Worker; both errors carry the code 404, and
    either way the store is untouched,
    so no LogMessage is created.  When both exist a new LogMessage carrying
    the text and both references is appended, and the jobs and workers
    tables are as before. *)
Theorem createLogMessage_validates s data now :
  (~ job_exists s (CreateLogMessageInput.jobId data) ->
   exists e,
     JobsResolver.createLogMessage data now s = (Rejected e, s) /\
     NotFound "Job" (CreateLogMessageInput.jobId data) e /\
     code e = Some "404") /\
  (job_exists s (CreateLogMessageInput.jobId data) ->
   ~ worker_exists s (CreateLogMessageInput.workerId data) ->
   exists e,
     JobsResolver.createLogMessage data now s = (Rejected e, s) /\
     NotFound "Worker" (CreateLogMessageInput.workerId data) e /\
     code e = Some "404") /\
  (job_exists s (CreateLogMessageInput.jobId data) ->
   worker_exists s (CreateLogMessageInput.workerId data) ->
   exists m,
     fst (JobsResolver.createLogMessage data now s) = Fulfilled m /\
     LogMessage.job m = CreateLogMessageInput.jobId data /\
     LogMessage.job_worker m = CreateLogMessageInput.workerId data /\
     LogMessage.text m = CreateLogMessageInput.text data /\
     log_messages (snd (JobsResolver.createLogMessage data now s))
       = (log_messages s ++ [m])%list /\
     jobs (snd (JobsResolver.createLogMessage data now s)) = jobs s /\
     workers (snd (JobsResolver.createLogMessage data now s)) = workers s).
Proof.
  rewrite createLogMessage_run; repeat split.
  - intros N; rewrite (find_key_none Job.id).
    + eexists; repeat split; reflexivity.
    + intros j Hj E; apply N; exists j; auto.
  - intros Hj N.
    apply (find_key_some Job.id) in Hj; destruct Hj as [j [Fj _]].
    rewrite Fj, (find_key_none JobWorker.id).
    + eexists; repeat split; reflexivity.
    + intros w Hw E; apply N; exists w; auto.
  - intros Hj Hw.
    apply (find_key_some Job.id) in Hj; destruct Hj as [j [Fj [_ Ej]]].
    apply (find_key_some JobWorker.id) in Hw; destruct Hw as [w [Fw [_ Ew]]].
    rewrite Fj, Fw; unfold LogMessage_insert; simpl.
    eexists; repeat split; simpl; assumption.
Qed.

Lemma createLogMessage_validates_witness :
  (exists e,
     JobsResolver.createLogMessage (CreateLogMessageInput.mk 9 1 "hello") 20 sample_store
       = (Rejected e, sample_store) /\
     NotFound "Job" 9 e /\ code e = Some "404") /\
  (exists e,
     JobsResolver.createLogMessage (CreateLogMessageInput.mk 1 7 "hello") 20 sample_store
       = (Rejected e, sample_store) /\
     NotFound "Worker" 7 e /\ code e = Some "404") /\
  (exists m,
     fst (JobsResolver.createLogMessage (CreateLogMessageInput.mk 2 1 "hello") 20
            sample_store) = Fulfilled m /\
     LogMessage.job m = 2 /\ LogMessage.job_worker m = 1).
Proof.
  split; [|split].
  - apply (createLogMessage_validates sample_store (CreateLogMessageInput.mk 9 1 "hello") 20).
    intros [j [[<-|[<-|[]]] E]]; discriminate E.
  - apply (createLogMessage_validates sample_store (CreateLogMessageInput.mk 1 7 "hello") 20).
    + exists (sample_job 1 10 waiting None); split; [left|]; reflexivity.
    + intros [w [[<-|[]] E]]; discriminate E.
  - destruct (createLogMessage_validates sample_store
                (CreateLogMessageInput.mk 2 1 "hello") 20) as [_ [_ H]].
    destruct H as [m [H1 [H2 [H3 _]]]].
    + exists (sample_job 2 5 waiting None); split; [right; left|]; reflexivity.
    + exists sample_worker; split; [left|]; reflexivity.
    + exists m; auto.
Defined.

(** C10: when neither the jobId nor the workerId matches a record,
    [createLogMessage] reports the Job: the rejection is the not-found
    error naming the Job, not the one naming the Worker. *)
Theorem createLogMessage_both_missing s data now :
  ~ job_exists s (CreateLogMessageInput.jobId data) ->
  ~ worker_exists s (CreateLogMessageInput.workerId data) ->
  exists e,
    JobsResolver.createLogMessage data now s = (Rejected e, s) /\
    NotFound "Job" (CreateLogMessageInput.jobId data) e /\
    forall i, ~ NotFound "Worker" i e.
Proof.
  intros N _; rewrite createLogMessage_run.
  rewrite (find_key_none Job.id).
  - eexists; split; [reflexivity|]; split; [reflexivity|].
    intros i H; discriminate H.
  - intros j Hj E; apply N; exists j; auto.
Qed.

Lemma createLogMessage_both_missing_witness :
  exists e,
    JobsResolver.createLogMessage (CreateLogMessageInput.mk 9 7 "hello") 20 sample_store
      = (Rejected e, sample_store) /\
    NotFound "Job" 9 e /\
    forall i, ~ NotFound "Worker" i e.
Proof.
  apply (createLogMessage_both_missing sample_store (CreateLogMessageInput.mk 9 7 "hello") 20).
  - intros [j [[<-|[<-|[]]] E]]; discriminate E.
  - intros [w [[<-|[]] E]]; discriminate E.
Defined.

(** C9: the code departs from the claim at priority 0.  A job created with
    the priority 0 supplied is stored with priority 1000, not with the
    supplied value; the call itself succeeds, the job is waiting and has no
    owner. *)
Theorem createJob_priority_zero s name inData now :
  exists j,
    fst (JobsResolver.createJob (CreateJobInput.mk name inData (Some 0)) now s)
      = Fulfilled j /\
    Job.status j = waiting /\
    Job.job_worker j = None /\
    Job.priority j = 1000 /\
    Job.priority j <> spec_priority (Some 0).
Proof.
  eexists; unfold JobsResolver.createJob, Job_insert; simpl.
  repeat split; discriminate.
Qed.

(** C3: every request keeps the Job invariants.  Each job of the table is
    still there afterwards with the same id, priority and input payload
    and a status that either stayed or moved one step along
    waiting, running, finished; rows that were added are waiting and
    unowned; and if every job had an owner exactly when running or
    finished, that still holds afterwards. *)
Theorem execute_preserves_job_invariants r now s :
  jobs_wf s ->
  Forall owner_iff_claimed (jobs s) ->
  jobs_wf (snd (execute r now s)) /\
  Forall owner_iff_claimed (jobs (snd (execute r now s))) /\
  exists kept added,
    jobs (snd (execute r now s)) = (kept ++ added)%list /\
    Forall2 job_evolves (jobs s) kept /\
    Forall job_fresh added.
Proof.
  intros W O; pose proof (execute_table_step r now s W) as T.
  split; [apply execute_jobs_wf; exact W|].
  split; [eapply table_step_owner; eauto|].
  eapply table_step_evolves; eauto.
Qed.

Lemma execute_preserves_job_invariants_witness :
  jobs_wf (snd (execute (Mutation_getJob (GetJobInput.mk 1)) 20 sample_store)) /\
  Forall owner_iff_claimed
         (jobs (snd (execute (Mutation_getJob (GetJobInput.mk 1)) 20 sample_store))) /\
  exists kept added,
    jobs (snd (execute (Mutation_getJob (GetJobInput.mk 1)) 20 sample_store))
      = (kept ++ added)%list /\
    Forall2 job_evolves (jobs sample_store) kept /\
    Forall job_fresh added.
Proof.
  apply (execute_preserves_job_invariants (Mutation_getJob (GetJobInput.mk 1)) 20
           sample_store).
  - unfold jobs_wf; simpl; lia.
  - assert (Hs : forall i p, owner_iff_claimed (sample_job i p waiting None)).
    { intros i p; unfold owner_iff_claimed; simpl; split.
      - intros H; exfalso; apply H; reflexivity.
      - intros [H|H]; discriminate H. }
    constructor; [apply Hs | constructor; [apply Hs | constructor]].
Defined.

(** The invariants hold in every state the server reaches from an empty
    database. *)
Lemma reachable_owner_iff_claimed rs s :
  jobs_wf s -> Forall owner_iff_claimed (jobs s) ->
  Forall owner_iff_claimed (jobs (serve rs s)).
Proof.
  revert s; induction rs as [|[r now] rs IH]; simpl; intros s W O; [exact O|].
  apply IH.
  - apply execute_jobs_wf; exact W.
  - eapply table_step_owner; [apply execute_table_step; exact W | exact O].
Qed.

Lemma running_store_wf : jobs_wf running_store.
Proof. unfold jobs_wf; simpl; lia. Qed.

(** C8, as stated, fails: no request of the schema is a CompleteJob.
    Whatever request is sent to [running_store], its running job 1 is not
    finished afterwards. *)
Lemma CompleteJob_not_exposed : ~ spec_exposes_CompleteJob.
Proof.
  intros [op H].
  destruct (H running_store 0 1 None (sample_job 1 10 running (Some 1))
              running_store_wf (or_introl eq_refl) eq_refl eq_refl)
    as [j' [Hj' [_ [F _]]]].
  pose proof (execute_table_step (op 1 None) 0 running_store running_store_wf) as T.
  destruct (table_step_completion _ _ _ _ T Hj') as [C _].
  destruct (C F) as [j [[<-|[]] [_ E]]]; discriminate E.
Qed.

(** C8 (amended): the resolver has no completion operation.  Its requests
    are jobs, logMessages, getJob, createJobWorker, createJob and
    createLogMessage, and none of them finishes a job or records an output
    payload: a job that is finished after a request was finished before
    it, and an output payload present after a request was present before.
    No request fails with an invalid-state error: every rejection is a
    not-found error naming a JobWorker, a Job or a Worker. *)
Theorem no_request_completes_a_job r now s :
  jobs_wf s ->
  (forall j', In j' (jobs (snd (execute r now s))) ->
     (Job.status j' = finished ->
      exists j, In j (jobs s) /\ Job.id j = Job.id j' /\ Job.status j = finished) /\
     (forall o, Job.outData j' = Some o ->
      exists j, In j (jobs s) /\ Job.id j = Job.id j' /\ Job.outData j = Some o)) /\
  (forall e, fst (execute r now s) = Rejected e ->
     exists i, NotFound "JobWorker" i e \/ NotFound "Job" i e \/ NotFound "Worker" i e).
Proof.
  intros W; split.
  - intros j' Hj'; eapply table_step_completion; [|exact Hj'].
    apply execute_table_step; exact W.
  - intros e; apply execute_rejections.
Qed.

Lemma no_request_completes_a_job_witness :
  jobs_wf running_store /\
  Forall (fun j' => Job.status j' <> finished /\ Job.outData j' = None)
         (jobs (snd (execute (Mutation_getJob (GetJobInput.mk 1)) 20 running_store))).
Proof.
  assert (W : jobs_wf running_store) by (unfold jobs_wf; simpl; lia).
  split; [exact W|].
  apply Forall_forall; intros j' Hj'.
  destruct (no_request_completes_a_job (Mutation_getJob (GetJobInput.mk 1)) 20
              running_store W) as [H _].
  destruct (H j' Hj') as [H1 H2]; split.
  - intros F; destruct (H1 F) as [j [[<-|[]] [_ E]]]; discriminate E.
  - destruct (Job.outData j') as [o|]; [|reflexivity].
    destruct (H2 o eq_refl) as [j [[<-|[]] [_ E]]]; discriminate E.
Defined.

(** * Further properties of the resolver *)

(** ** The store a request leaves behind *)

Lemma execute_snd r now s :
  snd (execute r now s) =
  match r with
  | Query_jobs | Query_logMessages => s
  | Mutation_getJob d => snd (JobsResolver.getJob d now s)
  | Mutation_createJobWorker d => snd (JobsResolver.createJobWorker d now s)
  | Mutation_createJob d => snd (JobsResolver.createJob d now s)
  | Mutation_createLogMessage d => snd (JobsResolver.createLogMessage d now s)
  end.
Proof.
  destruct r as [| |d|d|d|d]; unfold execute, bind; try reflexivity.
  - destruct (JobsResolver.getJob d now s) as [[x|e] s']; reflexivity.
  - destruct (JobsResolver.createLogMessage d now s) as [[x|e] s']; reflexivity.
Qed.

Lemma getJob_snd data now s :
  snd (JobsResolver.getJob data now s) = s \/
  exists w j,
    find (fun w => JobWorker.id w =? GetJobInput.workerId data) (workers s) = Some w /\
    find (fun j => JobStatus_eqb (Job.status j) waiting) (jobs s) = Some j /\
    fst (JobsResolver.getJob data now s)
      = Fulfilled (Some (claimed j (JobWorker.id w) now)) /\
    snd (JobsResolver.getJob data now s)
      = with_jobs (Job_update_row (claimed j (JobWorker.id w) now) (jobs s)) s.
Proof.
  rewrite getJob_run.
  destruct (find _ (workers s)) as [w|] eqn:Fw; [|left; reflexivity].
  destruct (find _ (jobs s)) as [j|] eqn:Fj; [|left; reflexivity].
  right; exists w, j; auto.
Qed.

Lemma createLogMessage_snd data now s :
  snd (JobsResolver.createLogMessage data now s) = s \/
  exists j w,
    find (fun j => Job.id j =? CreateLogMessageInput.jobId data) (jobs s) = Some j /\
    find (fun w => JobWorker.id w =? CreateLogMessageInput.workerId data) (workers s)
      = Some w /\
    JobsResolver.createLogMessage data now s
      = LogMessage_insert (CreateLogMessageInput.text data) j w now s.
Proof.
  rewrite createLogMessage_run.
  destruct (find _ (jobs s)) as [j|] eqn:Fj; [|left; reflexivity].
  destruct (find _ (workers s)) as [w|] eqn:Fw; [|left; reflexivity].
  right; exists j, w; auto.
Qed.

Lemma update_row_ids j rows :
  map Job.id (Job_update_row j rows) = map Job.id rows.
Proof.
  induction rows as [|a rows IH]; simpl; [reflexivity|].
  rewrite IH; destruct (Z.eqb_spec (Job.id a) (Job.id j)) as [E|_]; congruence.
Qed.

(** X1: a request that is rejected writes nothing: the store after it is
    the store before it. *)
Theorem rejected_request_writes_nothing r now s e :
  fst (execute r now s) = Rejected e -> snd (execute r now s) = s.
Proof.
  destruct r as [| |d|d|d|d]; unfold execute, bind; try discriminate.
  - rewrite getJob_run.
    destruct (find _ (workers s)); [|reflexivity].
    destruct (find _ (jobs s)); discriminate.
  - rewrite createLogMessage_run.
    destruct (find _ (jobs s)); [|reflexivity].
    destruct (find _ (workers s)); [discriminate | reflexivity].
Qed.

Lemma rejected_request_writes_nothing_witness :
  snd (execute (Mutation_createLogMessage (CreateLogMessageInput.mk 1 7 "hello")) 20
         sample_store) = sample_store.
Proof.
  apply (rejected_request_writes_nothing
           (Mutation_createLogMessage (CreateLogMessageInput.mk 1 7 "hello")) 20
           sample_store
           (mkApolloError "Worker 7 not found" (Some "404"))).
  reflexivity.
Defined.

Lemma execute_grows r now s :
  exists ws ms js,
    workers (snd (execute r now s)) = (workers s ++ ws)%list /\
    log_messages (snd (execute r now s)) = (log_messages s ++ ms)%list /\
    map Job.id (jobs (snd (execute r now s))) = (map Job.id (jobs s) ++ js)%list /\
    (List.length ws + List.length ms + List.length js <= 1)%nat.
Proof.
  rewrite execute_snd; destruct r as [| |d|d|d|d].
  - exists [], [], []; rewrite !app_nil_r; auto.
  - exists [], [], []; rewrite !app_nil_r; auto.
  - exists [], [], []; rewrite !app_nil_r.
    destruct (getJob_snd d now s) as [->|[w [j [_ [_ [_ ->]]]]]]; [auto|].
    simpl; rewrite update_row_ids; auto.
  - eexists [_], [], []; rewrite !app_nil_r.
    unfold JobsResolver.createJobWorker, JobWorker_insert; simpl.
    repeat split; reflexivity.
  - eexists [], [], [_]; rewrite !app_nil_r.
    unfold JobsResolver.createJob, Job_insert; simpl.
    rewrite map_app; repeat split; reflexivity.
  - destruct (createLogMessage_snd d now s) as [->|[j [w [_ [_ ->]]]]].
    + exists [], [], []; rewrite !app_nil_r; auto.
    + eexists [], [_], []; rewrite !app_nil_r.
      unfold LogMessage_insert; simpl; repeat split; reflexivity.
Qed.

(** X2: no request deletes or rewrites a worker or a log message, and no
    request deletes a job or changes a job's id: the workers and the log
    messages after a request are those before it followed by at most one
    new row, and so is the id column of the jobs table. *)
Theorem tables_only_grow r now s :
  exists ws ms js,
    workers (snd (execute r now s)) = (workers s ++ ws)%list /\
    log_messages (snd (execute r now s)) = (log_messages s ++ ms)%list /\
    map Job.id (jobs (snd (execute r now s))) = (map Job.id (jobs s) ++ js)%list /\
    (List.length ws + List.length ms + List.length js <= 1)%nat.
Proof. apply execute_grows. Qed.

(** ** Primary keys *)

Lemma keys_ascending_bound lo keys hi :
  keys_ascending lo keys hi -> lo <= hi.
Proof.
  revert lo; induction keys as [|k keys IH]; simpl; intros lo H; [exact H|].
  destruct H as [H1 H2]; apply IH in H2; lia.
Qed.

Lemma keys_ascending_In lo keys hi k :
  keys_ascending lo keys hi -> In k keys -> lo < k <= hi.
Proof.
  revert lo; induction keys as [|a keys IH]; simpl; intros lo H Hk; [contradiction|].
  destruct H as [H1 H2]; destruct Hk as [->|Hk].
  - apply keys_ascending_bound in H2; lia.
  - specialize (IH _ H2 Hk); lia.
Qed.

Lemma keys_ascending_snoc lo keys hi :
  keys_ascending lo keys hi -> keys_ascending lo (keys ++ [hi + 1]) (hi + 1).
Proof.
  revert lo; induction keys as [|a keys IH]; simpl; intros lo H.
  - lia.
  - destruct H as [H1 H2]; split; [exact H1|]; apply IH; exact H2.
Qed.

Lemma keys_ascending_NoDup lo keys hi :
  keys_ascending lo keys hi -> NoDup keys.
Proof.
  revert lo; induction keys as [|a keys IH]; simpl; intros lo H; [constructor|].
  destruct H as [H1 H2]; constructor; [|eapply IH; exact H2].
  intros Hin; pose proof (keys_ascending_In _ _ _ _ H2 Hin); lia.
Qed.

Lemma ids_ascending_keys lo rows hi :
  ids_ascending lo rows hi <-> keys_ascending lo (map Job.id rows) hi.
Proof.
  revert lo; induction rows as [|a rows IH]; simpl; intros lo; [tauto|].
  rewrite IH; tauto.
Qed.

Lemma empty_store_store_wf : store_wf empty_store.
Proof. unfold store_wf, jobs_wf, workers_wf, log_messages_wf; simpl; lia. Qed.

Lemma execute_store_wf r now s :
  store_wf s -> store_wf (snd (execute r now s)).
Proof.
  intros [Wj [Ww Wl]]; split; [apply execute_jobs_wf; exact Wj|].
  unfold workers_wf, log_messages_wf in *; rewrite execute_snd.
  destruct r as [| |d|d|d|d]; auto.
  - destruct (getJob_snd d now s) as [->|[w [j [_ [_ [_ ->]]]]]]; auto.
  - unfold JobsResolver.createJobWorker, JobWorker_insert; simpl.
    rewrite map_app; split; [apply keys_ascending_snoc|]; assumption.
  - destruct (createLogMessage_snd d now s) as [->|[j [w [_ [_ ->]]]]]; auto.
    unfold LogMessage_insert; simpl.
    rewrite map_app; split; [|apply keys_ascending_snoc]; assumption.
Qed.

Lemma serve_store_wf rs s : store_wf s -> store_wf (serve rs s).
Proof.
  revert s; induction rs as [|[r now] rs IH]; simpl; intros s W; [exact W|].
  apply IH, execute_store_wf, W.
Qed.

(** X3: primary keys are unique.  In every state the server reaches from
    an empty database no two jobs, no two workers and no two log messages
    share an id, and every id is positive. *)
Theorem reachable_primary_keys_unique rs :
  NoDup (map Job.id (jobs (serve rs empty_store))) /\
  NoDup (map JobWorker.id (workers (serve rs empty_store))) /\
  NoDup (map LogMessage.id (log_messages (serve rs empty_store))) /\
  Forall (fun k => 0 < k) (map Job.id (jobs (serve rs empty_store))) /\
  Forall (fun k => 0 < k) (map JobWorker.id (workers (serve rs empty_store))) /\
  Forall (fun k => 0 < k) (map LogMessage.id (log_messages (serve rs empty_store))).
Proof.
  destruct (serve_store_wf rs empty_store empty_store_store_wf) as [Wj [Ww Wl]].
  apply ids_ascending_keys in Wj.
  repeat split;
    try (eapply keys_ascending_NoDup; eassumption);
    apply Forall_forall; intros k Hk.
  - apply (keys_ascending_In _ _ _ _ Wj Hk).
  - apply (keys_ascending_In _ _ _ _ Ww Hk).
  - apply (keys_ascending_In _ _ _ _ Wl Hk).
Qed.

(** ** Foreign keys *)

Lemma execute_worker_exists r now s i :
  worker_exists s i -> worker_exists (snd (execute r now s)) i.
Proof.
  intros [w [Hw E]]; destruct (execute_grows r now s) as [ws [_ [_ [Q _]]]].
  exists w; rewrite Q; split; [apply in_or_app; left; exact Hw | exact E].
Qed.

Lemma execute_job_exists r now s i :
  job_exists s i -> job_exists (snd (execute r now s)) i.
Proof.
  intros [j [Hj E]]; destruct (execute_grows r now s) as [_ [_ [js [_ [_ [Q _]]]]]].
  assert (Hi : In i (map Job.id (jobs (snd (execute r now s))))).
  { rewrite Q; apply in_or_app; left; rewrite <- E; apply in_map; exact Hj. }
  apply in_map_iff in Hi; destruct Hi as [j' [E' Hj']]; exists j'; auto.
Qed.

Lemma update_row_In x j rows :
  In x (Job_update_row j rows) -> x = j \/ In x rows.
Proof.
  induction rows as [|a rows IH]; simpl; [tauto|].
  intros [H|H].
  - destruct (Job.id a =? Job.id j); [left | right; left]; congruence.
  - destruct (IH H); auto.
Qed.

Lemma execute_references_ok r now s :
  references_ok s -> references_ok (snd (execute r now s)).
Proof.
  intros [Rm Rj].
  assert (Keep : forall s', s' = snd (execute r now s) ->
            (forall m, In m (log_messages s) ->
               job_exists s' (LogMessage.job m) /\
               worker_exists s' (LogMessage.job_worker m)) /\
            (forall j i, In j (jobs s) -> Job.job_worker j = Some i ->
               worker_exists s' i)).
  { intros s' ->; split.
    - intros m Hm; destruct (Rm m Hm); split;
        [apply execute_job_exists | apply execute_worker_exists]; assumption.
    - intros j i Hj E; apply execute_worker_exists; eapply Rj; eauto. }
  specialize (Keep _ eq_refl); destruct Keep as [Km Kj].
  revert Km Kj; rewrite execute_snd; destruct r as [| |d|d|d|d]; intros Km Kj.
  - split; assumption.
  - split; assumption.
  - destruct (getJob_snd d now s) as [Q|[w [j [Fw [_ [_ Q]]]]]];
      rewrite Q in *; [split; assumption|].
    split; [exact Km|].
    intros k i Hk E; simpl in Hk.
    apply update_row_In in Hk; destruct Hk as [->|Hk]; [|eapply Kj; eauto].
    simpl in E; injection E as <-.
    apply find_some in Fw; destruct Fw as [Hw _].
    exists w; split; [exact Hw | reflexivity].
  - split; assumption.
  - split; [exact Km|].
    intros k i Hk E; simpl in Hk.
    apply in_app_or in Hk; destruct Hk as [Hk|[<-|[]]]; [eapply Kj; eauto|].
    discriminate E.
  - destruct (createLogMessage_snd d now s) as [Q|[j [w [Fj [Fw Q]]]]];
      rewrite Q in *; [split; assumption|].
    split; [|exact Kj].
    intros m Hm; simpl in Hm.
    apply in_app_or in Hm; destruct Hm as [Hm|[<-|[]]]; [apply Km; exact Hm|].
    apply find_some in Fj; destruct Fj as [Hj _].
    apply find_some in Fw; destruct Fw as [Hw _].
    split; [exists j | exists w]; simpl; auto.
Qed.

Lemma empty_store_references_ok : references_ok empty_store.
Proof. split; simpl; intros; contradiction. Qed.

Lemma serve_references_ok rs s : references_ok s -> references_ok (serve rs s).
Proof.
  revert s; induction rs as [|[r now] rs IH]; simpl; intros s W; [exact W|].
  apply IH, execute_references_ok, W.
Qed.

Lemma reachable_references_ok_aux rs : references_ok (serve rs empty_store).
Proof. apply serve_references_ok, empty_store_references_ok. Qed.

(** X4: references never dangle.  In every state the server reaches from
    an empty database each log message names a job and a worker that are in
    the store, and each owned job names a worker that is in the store. *)
Theorem reachable_references_ok rs : references_ok (serve rs empty_store).
Proof. apply serve_references_ok, empty_store_references_ok. Qed.

(** ** What is true of every stored job *)

Lemma js_or_nonzero p d : d <> 0 -> js_or p d <> 0.
Proof.
  intros D; destruct p as [v|]; simpl; [|exact D].
  destruct (Z.eqb_spec v 0); assumption.
Qed.

Lemma execute_job_sound r now s :
  Forall job_sound (jobs s) -> Forall job_sound (jobs (snd (execute r now s))).
Proof.
  intros H; rewrite execute_snd; destruct r as [| |d|d|d|d]; try exact H.
  - destruct (getJob_snd d now s) as [->|[w [j [_ [Fj [_ ->]]]]]]; [exact H|].
    apply find_some in Fj; destruct Fj as [Hj Ej]; apply JobStatus_eqb_eq in Ej.
    rewrite Forall_forall in H |- *; intros x Hx; simpl in Hx.
    apply update_row_In in Hx; destruct Hx as [->|Hx]; [|apply H; exact Hx].
    destruct (H j Hj) as [_ [O [P _]]].
    repeat split; simpl; auto; discriminate.
  - simpl; apply Forall_app; split; [exact H|].
    constructor; [|constructor].
    repeat split; simpl; auto.
    + apply js_or_nonzero; discriminate.
    + intros C; exfalso; apply C; reflexivity.
    + discriminate.
  - destruct (createLogMessage_snd d now s) as [->|[j [w [_ [_ ->]]]]]; exact H.
Qed.

Lemma serve_job_sound rs s :
  Forall job_sound (jobs s) -> Forall job_sound (jobs (serve rs s)).
Proof.
  revert s; induction rs as [|[r now] rs IH]; simpl; intros s W; [exact W|].
  apply IH, execute_job_sound, W.
Qed.

(** X5: in every state the server reaches from an empty database, every
    job is waiting or running (none is ever finished), has no output
    payload, has a priority other than 0, and has an owner exactly when it
    is running. *)
Theorem reachable_jobs_sound rs :
  Forall (fun j =>
            (Job.status j = waiting \/ Job.status j = running) /\
            Job.outData j = None /\
            Job.priority j <> 0 /\
            (Job.job_worker j <> None <-> Job.status j = running))
         (jobs (serve rs empty_store)).
Proof. apply (serve_job_sound rs empty_store); constructor. Qed.

(** ** The two listings *)

(** X6: the jobs query changes nothing and lists the jobs of the store in
    table order.  In every state reached from an empty database, an entry
    carries exactly the log messages written for its job, and its owner is
    loaded when the job is running (the worker with the recorded id) and
    absent when it is waiting. *)
Theorem jobs_lists_every_job rs :
  exists l,
    JobsResolver.jobs (serve rs empty_store) = (Fulfilled l, serve rs empty_store) /\
    map (fun e => fst (fst e)) l = jobs (serve rs empty_store) /\
    Forall (fun e =>
              let j := fst (fst e) in
              (forall m, In m (snd (fst e)) <->
                         In m (log_messages (serve rs empty_store)) /\
                         LogMessage.job m = Job.id j) /\
              (Job.status j = waiting -> snd e = None) /\
              (Job.status j = running ->
               exists w, snd e = Some w /\
                         In w (workers (serve rs empty_store)) /\
                         Job.job_worker j = Some (JobWorker.id w)))
           l.
Proof.
  pose proof (reachable_references_ok_aux rs) as [_ Rj].
  pose proof (serve_job_sound rs empty_store (Forall_nil _)) as Sd.
  set (s := serve rs empty_store) in *.
  exists (map (Job_relations s) (jobs s)); split; [reflexivity|]; split.
  - rewrite map_map; simpl; apply map_id.
  - apply Forall_forall; intros e He.
    apply in_map_iff in He; destruct He as [j [<- Hj]]; simpl.
    rewrite Forall_forall in Sd; destruct (Sd j Hj) as [_ [_ [_ Ow]]].
    split; [|split].
    + intros m; rewrite filter_In, Z.eqb_eq; tauto.
    + intros Ew; destruct (Job.job_worker j) as [i|]; [|reflexivity].
      assert (C : Job.status j = running) by (apply Ow; discriminate).
      congruence.
    + intros Er; destruct (Job.job_worker j) as [i|] eqn:Ei.
      * destruct (find_key_some JobWorker.id i (workers s) (Rj j i Hj Ei))
          as [w [Fw [Hw Ew]]].
        exists w; rewrite Ew; auto.
      * exfalso; apply Ow in Er; apply Er; reflexivity.
Qed.

(** X7: the logMessages query changes nothing and lists the log messages
    of the store in table order.  In every state reached from an empty
    database both relations of every entry are loaded: the job and the
    worker the message was written for. *)
Theorem logMessages_lists_every_message rs :
  exists l,
    JobsResolver.logMessages (serve rs empty_store)
      = (Fulfilled l, serve rs empty_store) /\
    map (fun e => fst (fst e)) l = log_messages (serve rs empty_store) /\
    Forall (fun e =>
              let m := fst (fst e) in
              (exists j, snd (fst e) = Some j /\
                         In j (jobs (serve rs empty_store)) /\
                         Job.id j = LogMessage.job m) /\
              (exists w, snd e = Some w /\
                         In w (workers (serve rs empty_store)) /\
                         JobWorker.id w = LogMessage.job_worker m))
           l.
Proof.
  pose proof (reachable_references_ok_aux rs) as [Rm _].
  set (s := serve rs empty_store) in *.
  exists (map (LogMessage_relations s) (log_messages s)); split; [reflexivity|]; split.
  - rewrite map_map; simpl; apply map_id.
  - apply Forall_forall; intros e He.
    apply in_map_iff in He; destruct He as [m [<- Hm]]; simpl.
    destruct (Rm m Hm) as [Ej Ew]; split.
    + destruct (find_key_some Job.id _ (jobs s) Ej) as [j [Fj [Hj E]]].
      exists j; auto.
    + destruct (find_key_some JobWorker.id _ (workers s) Ew) as [w [Fw [Hw E]]].
      exists w; auto.
Qed.

(** ** Creating rows and finding them again *)

Lemma find_snoc {A} (p : A -> bool) (l : list A) (a : A) :
  find p (l ++ [a]) =
  match find p l with
  | Some x => Some x
  | None => if p a then Some a else None
  end.
Proof.
  induction l as [|b l IH]; simpl; [reflexivity|].
  destruct (p b); [reflexivity | exact IH].
Qed.

Lemma find_fresh_key {A} (key : A -> Z) (l : list A) (hi : Z) (i : Z) :
  keys_ascending 0 (map key l) hi -> hi < i ->
  find (fun a => key a =? i) l = None.
Proof.
  intros W Hi; apply find_key_none; intros a Ha E.
  pose proof (keys_ascending_In _ _ _ _ W (in_map key _ _ Ha)); lia.
Qed.

(** X8: registering a worker always succeeds (whatever the name, the empty
    one included).  The new worker gets an id no worker of the store has,
    carries the given name and the time of the call in both date columns,
    and is what a lookup of its id then finds; lookups of other ids, the
    jobs and the log messages are as before, and a claim made with the new
    id is never rejected. *)
Theorem createJobWorker_registers data now s :
  workers_wf s ->
  exists w,
    fst (JobsResolver.createJobWorker data now s) = Fulfilled w /\
    JobWorker.name w = CreateJobWorkerInput.name data /\
    JobWorker.createdAt w = now /\ JobWorker.updatedAt w = now /\
    ~ worker_exists s (JobWorker.id w) /\
    fst (JobWorker_findOne (JobWorker.id w)
           (snd (JobsResolver.createJobWorker data now s))) = Fulfilled (Some w) /\
    (forall i, i <> JobWorker.id w ->
       fst (JobWorker_findOne i (snd (JobsResolver.createJobWorker data now s)))
       = fst (JobWorker_findOne i s)) /\
    jobs (snd (JobsResolver.createJobWorker data now s)) = jobs s /\
    log_messages (snd (JobsResolver.createJobWorker data now s)) = log_messages s /\
    (forall now' e,
       fst (JobsResolver.getJob (GetJobInput.mk (JobWorker.id w)) now'
              (snd (JobsResolver.createJobWorker data now s))) <> Rejected e).
Proof.
  intros W; unfold workers_wf in W.
  assert (N : find (fun a => JobWorker.id a =? seq_workers s + 1) (workers s) = None)
    by (apply (find_fresh_key JobWorker.id _ (seq_workers s)); [exact W | lia]).
  eexists; split; [reflexivity|].
  unfold JobsResolver.createJobWorker, JobWorker_insert, JobWorker_findOne; simpl.
  repeat split.
  - intros [w [Hw E]].
    pose proof (keys_ascending_In _ _ _ _ W (in_map JobWorker.id _ _ Hw)); lia.
  - rewrite find_snoc, N; simpl; rewrite Z.eqb_refl; reflexivity.
  - intros i Hi; rewrite find_snoc; simpl.
    destruct (find (fun a => JobWorker.id a =? i) (workers s)); [reflexivity|].
    destruct (Z.eqb_spec (seq_workers s + 1) i); [congruence | reflexivity].
  - intros now' e; rewrite getJob_run; simpl.
    rewrite find_snoc, N; simpl; rewrite Z.eqb_refl.
    destruct (find _ (jobs s)); discriminate.
Qed.

Lemma createJobWorker_registers_witness :
  exists w,
    fst (JobsResolver.createJobWorker (CreateJobWorkerInput.mk "") 20 sample_store)
      = Fulfilled w /\
    fst (JobWorker_findOne (JobWorker.id w)
           (snd (JobsResolver.createJobWorker (CreateJobWorkerInput.mk "") 20
                   sample_store))) = Fulfilled (Some w).
Proof.
  destruct (createJobWorker_registers (CreateJobWorkerInput.mk "") 20 sample_store)
    as [w [R [_ [_ [_ [_ [F _]]]]]]].
  - unfold workers_wf; simpl; lia.
  - exists w; split; [exact R | exact F].
Defined.

(** X9: a created job gets an id no job of the store has and is what a
    lookup of its id then finds; lookups of other ids, the workers and the
    log messages are as before. *)
Theorem createJob_enqueues data now s :
  jobs_wf s ->
  exists j,
    fst (JobsResolver.createJob data now s) = Fulfilled j /\
    ~ job_exists s (Job.id j) /\
    fst (Job_findOne (Job.id j) (snd (JobsResolver.createJob data now s)))
      = Fulfilled (Some j) /\
    (forall i, i <> Job.id j ->
       fst (Job_findOne i (snd (JobsResolver.createJob data now s)))
       = fst (Job_findOne i s)) /\
    workers (snd (JobsResolver.createJob data now s)) = workers s /\
    log_messages (snd (JobsResolver.createJob data now s)) = log_messages s.
Proof.
  intros W; unfold jobs_wf in W; apply ids_ascending_keys in W.
  assert (N : find (fun a => Job.id a =? seq_jobs s + 1) (jobs s) = None)
    by (apply (find_fresh_key Job.id _ (seq_jobs s)); [exact W | lia]).
  eexists; split; [reflexivity|].
  unfold JobsResolver.createJob, Job_insert, Job_findOne; simpl.
  repeat split.
  - intros [j [Hj E]].
    pose proof (keys_ascending_In _ _ _ _ W (in_map Job.id _ _ Hj)); lia.
  - rewrite find_snoc, N; simpl; rewrite Z.eqb_refl; reflexivity.
  - intros i Hi; rewrite find_snoc; simpl.
    destruct (find (fun a => Job.id a =? i) (jobs s)); [reflexivity|].
    destruct (Z.eqb_spec (seq_jobs s + 1) i); [congruence | reflexivity].
Qed.

Lemma createJob_enqueues_witness :
  exists j,
    fst (JobsResolver.createJob (CreateJobInput.mk "deploy" None None) 20 sample_store)
      = Fulfilled j /\
    fst (Job_findOne (Job.id j)
           (snd (JobsResolver.createJob (CreateJobInput.mk "deploy" None None) 20
                   sample_store))) = Fulfilled (Some j).
Proof.
  destruct (createJob_enqueues (CreateJobInput.mk "deploy" None None) 20 sample_store)
    as [j [R [_ [F _]]]].
  - unfold jobs_wf; simpl; lia.
  - exists j; split; [exact R | exact F].
Defined.

(** X10: what [createJob] stores.  The call always succeeds (no check is
    made on the name); the job carries the given name and input payload and
    the time of the call in both date columns, is waiting, has no owner and
    no output payload.  Its priority is the supplied one when that is not
    0, and 1000 when none is supplied or 0 is. *)
Theorem createJob_stores_input data now s :
  exists j,
    fst (JobsResolver.createJob data now s) = Fulfilled j /\
    jobs (snd (JobsResolver.createJob data now s)) = (jobs s ++ [j])%list /\
    Job.name j = CreateJobInput.name data /\
    Job.inData j = CreateJobInput.inData data /\
    Job.createdAt j = now /\ Job.updatedAt j = now /\
    Job.status j = waiting /\ Job.job_worker j = None /\ Job.outData j = None /\
    (forall p, CreateJobInput.priority data = Some p -> p <> 0 -> Job.priority j = p) /\
    (CreateJobInput.priority data = None \/ CreateJobInput.priority data = Some 0 ->
     Job.priority j = 1000).
Proof.
  eexists; split; [reflexivity|].
  unfold JobsResolver.createJob, Job_insert; simpl; repeat split.
  - intros p -> Hp; simpl; destruct (Z.eqb_spec p 0); [contradiction | reflexivity].
  - intros [->| ->]; reflexivity.
Qed.

(** X11: jobs are served oldest first.  A job created while another job is
    waiting does not change what the next claim returns, whatever the new
    job's priority; a job created while no job is waiting is what the next
    claim by an existing worker returns. *)
Theorem createJob_then_getJob data now s d now' :
  (some_job_waiting s ->
   fst (JobsResolver.getJob d now' (snd (JobsResolver.createJob data now s)))
   = fst (JobsResolver.getJob d now' s)) /\
  (~ some_job_waiting s ->
   worker_exists s (GetJobInput.workerId d) ->
   exists j,
     fst (JobsResolver.createJob data now s) = Fulfilled j /\
     fst (JobsResolver.getJob d now' (snd (JobsResolver.createJob data now s)))
     = Fulfilled (Some (claimed j (GetJobInput.workerId d) now'))).
Proof.
  rewrite !getJob_run.
  unfold JobsResolver.createJob, Job_insert; simpl; split.
  - intros Hw; apply find_waiting_some in Hw; destruct Hw as [j Fj].
    rewrite find_snoc, Fj.
    destruct (find _ (workers s)); reflexivity.
  - intros N Hw.
    apply (find_key_some JobWorker.id) in Hw; destruct Hw as [w [Fw [_ Ew]]].
    eexists; split; [reflexivity|].
    rewrite Fw, find_snoc, find_waiting_none; simpl.
    + rewrite Ew; reflexivity.
    + intros j Hj Ej; apply N; exists j; auto.
Qed.

Lemma createJob_then_getJob_witness :
  fst (JobsResolver.getJob (GetJobInput.mk 1) 30
         (snd (JobsResolver.createJob (CreateJobInput.mk "urgent" None (Some 1)) 20
                 sample_store)))
  = fst (JobsResolver.getJob (GetJobInput.mk 1) 30 sample_store) /\
  exists j,
    fst (JobsResolver.createJob (CreateJobInput.mk "urgent" None (Some 1)) 20
           running_store) = Fulfilled j /\
    fst (JobsResolver.getJob (GetJobInput.mk 1) 30
           (snd (JobsResolver.createJob (CreateJobInput.mk "urgent" None (Some 1)) 20
                   running_store)))
    = Fulfilled (Some (claimed j 1 30)).
Proof.
  split.
  - apply (createJob_then_getJob (CreateJobInput.mk "urgent" None (Some 1)) 20
             sample_store (GetJobInput.mk 1) 30).
    exists (sample_job 1 10 waiting None); split; [left|]; reflexivity.
  - apply (createJob_then_getJob (CreateJobInput.mk "urgent" None (Some 1)) 20
             running_store (GetJobInput.mk 1) 30).
    + intros [j [[<-|[]] E]]; discriminate E.
    + exists sample_worker; split; [left|]; reflexivity.
Defined.

(** ** Claims in a row *)

Lemma find_none_filter {A} (p : A -> bool) (l : list A) :
  find p l = None -> filter p l = [].
Proof.
  induction l as [|a l IH]; simpl; [reflexivity|].
  destruct (p a); [discriminate | exact IH].
Qed.

Lemma count_waiting_app l1 l2 :
  count_waiting (l1 ++ l2) = (count_waiting l1 + count_waiting l2)%nat.
Proof. unfold count_waiting; rewrite filter_app; apply length_app. Qed.

Lemma getJob_count_waiting data now s :
  jobs_wf s ->
  worker_exists s (GetJobInput.workerId data) ->
  count_waiting (jobs (snd (JobsResolver.getJob data now s)))
  = Nat.pred (count_waiting (jobs s)).
Proof.
  intros W Hw.
  apply (find_key_some JobWorker.id) in Hw; destruct Hw as [w [Fw _]].
  rewrite getJob_run, Fw.
  destruct (find _ (jobs s)) as [j|] eqn:Fj.
  - pose proof (find_some _ _ Fj) as [Hj Ej].
    destruct (update_row_split _ _ _ _ W Hj) as [l1 [l2 [E U]]].
    simpl; rewrite (U (claimed j (JobWorker.id w) now) eq_refl), E.
    rewrite !count_waiting_app.
    change (j :: l2) with ([j] ++ l2)%list.
    change (claimed j (JobWorker.id w) now :: l2)
      with ([claimed j (JobWorker.id w) now] ++ l2)%list.
    rewrite !count_waiting_app.
    unfold count_waiting at 2 5; simpl; rewrite Ej; simpl; lia.
  - simpl; unfold count_waiting; rewrite (find_none_filter _ _ Fj); reflexivity.
Qed.

Lemma getJob_keeps_workers data now s :
  workers (snd (JobsResolver.getJob data now s)) = workers s.
Proof.
  destruct (getJob_snd data now s) as [->|[w [j [_ [_ [_ ->]]]]]]; reflexivity.
Qed.

Lemma getJob_jobs_wf data now s :
  jobs_wf s -> jobs_wf (snd (JobsResolver.getJob data now s)).
Proof.
  intros W; pose proof (execute_jobs_wf (Mutation_getJob data) now s W) as H.
  rewrite execute_snd in H; exact H.
Qed.

(** X12: a claim that returns a job takes exactly one job out of the
    waiting ones. *)
Theorem getJob_takes_one_job data now s j' :
  jobs_wf s ->
  fst (JobsResolver.getJob data now s) = Fulfilled (Some j') ->
  (count_waiting (jobs (snd (JobsResolver.getJob data now s))) + 1
   = count_waiting (jobs s))%nat.
Proof.
  intros W R.
  destruct (getJob_returns _ _ _ _ R) as [w [j [Hw [Ew [Hj [Ej _]]]]]].
  rewrite getJob_count_waiting; [|exact W | exists w; auto].
  assert (P : (0 < count_waiting (jobs s))%nat).
  { unfold count_waiting.
    assert (Hf : In j (filter (fun j => JobStatus_eqb (Job.status j) waiting) (jobs s)))
      by (apply filter_In; split; [exact Hj | apply JobStatus_eqb_eq; exact Ej]).
    destruct (filter _ (jobs s)); [contradiction | simpl; lia]. }
  lia.
Qed.

Lemma getJob_takes_one_job_witness :
  (count_waiting
     (jobs (snd (JobsResolver.getJob (GetJobInput.mk 1) 20 sample_store))) + 1
   = count_waiting (jobs sample_store))%nat.
Proof.
  apply (getJob_takes_one_job (GetJobInput.mk 1) 20 sample_store
           (claimed (sample_job 1 10 waiting None) 1 20)).
  - unfold jobs_wf; simpl; lia.
  - reflexivity.
Defined.

(** X13: claims drain the queue one job at a time.  After [n] claims in a
    row by an existing worker, the number of waiting jobs is the number
    before less [n], and stays 0 once every job has been handed out. *)
Theorem claims_drain_the_queue n data now s :
  jobs_wf s ->
  worker_exists s (GetJobInput.workerId data) ->
  count_waiting (jobs (claim_times n data now s)) = (count_waiting (jobs s) - n)%nat.
Proof.
  revert now s; induction n as [|n IH]; simpl; intros now s W Hw; [lia|].
  rewrite IH.
  - rewrite getJob_count_waiting by assumption; lia.
  - apply getJob_jobs_wf; exact W.
  - destruct Hw as [w [Hin E]]; exists w; rewrite getJob_keeps_workers; auto.
Qed.

Lemma claims_drain_the_queue_witness :
  count_waiting (jobs (claim_times 3 (GetJobInput.mk 1) 20 sample_store)) = 0%nat.
Proof.
  apply (claims_drain_the_queue 3 (GetJobInput.mk 1) 20 sample_store).
  - unfold jobs_wf; simpl; lia.
  - exists sample_worker; split; [left|]; reflexivity.
Defined.

(** ** A claimed job stays with its worker *)

Lemma find_by_id_In lo rows hi j :
  ids_ascending lo rows hi -> In j rows ->
  find (fun r => Job.id r =? Job.id j) rows = Some j.
Proof.
  revert lo; induction rows as [|a rows IH]; simpl; intros lo W Hj; [contradiction|].
  destruct W as [W1 W2]; destruct Hj as [->|Hj].
  - rewrite Z.eqb_refl; reflexivity.
  - pose proof (ids_ascending_In _ _ _ _ W2 Hj).
    destruct (Z.eqb_spec (Job.id a) (Job.id j)); [lia|].
    eapply IH; eauto.
Qed.

Lemma serve_claimed_job_stays rs s j :
  jobs_wf s -> In j (jobs s) -> Job.status j <> waiting -> In j (jobs (serve rs s)).
Proof.
  revert s; induction rs as [|[r now] rs IH]; simpl; intros s W Hj N; [exact Hj|].
  apply IH; [apply execute_jobs_wf; exact W | | exact N].
  apply claimed_job_stays; assumption.
Qed.

(** X14: once a job has left the waiting state, no sequence of requests
    changes it again.  Its row, owner and timestamps included, is still in
    the table after any further requests, and a lookup of its id returns
    exactly that row: a later claim never hands the job to another
    worker. *)
Theorem claimed_job_never_changes rs s j :
  jobs_wf s ->
  In j (jobs s) ->
  Job.status j <> waiting ->
  In j (jobs (serve rs s)) /\
  fst (Job_findOne (Job.id j) (serve rs s)) = Fulfilled (Some j).
Proof.
  intros W Hj N.
  pose proof (serve_claimed_job_stays rs s j W Hj N) as H.
  split; [exact H|].
  unfold Job_findOne; simpl; f_equal.
  eapply find_by_id_In; [apply (serve_jobs_wf rs s W) | exact H].
Qed.

Lemma claimed_job_never_changes_witness :
  In (sample_job 1 10 running (Some 1))
     (jobs (serve [(Mutation_createJobWorker (CreateJobWorkerInput.mk "w2"), 30);
                   (Mutation_getJob (GetJobInput.mk 2), 31)]
                  running_store)) /\
  fst (Job_findOne 1
         (serve [(Mutation_createJobWorker (CreateJobWorkerInput.mk "w2"), 30);
                 (Mutation_getJob (GetJobInput.mk 2), 31)]
                running_store))
  = Fulfilled (Some (sample_job 1 10 running (Some 1))).
Proof.
  apply (claimed_job_never_changes
           [(Mutation_createJobWorker (CreateJobWorkerInput.mk "w2"), 30);
            (Mutation_getJob (GetJobInput.mk 2), 31)]
           running_store (sample_job 1 10 running (Some 1))).
  - unfold jobs_wf; simpl; lia.
  - left; reflexivity.
  - discriminate.
Defined.

(** ** A new log message in the listings *)

(** X15: a log message that was accepted shows up in both listings.  The
    logMessages query returns what it returned before followed by the new
    message with its job and worker loaded; the jobs query returns what it
    returned before, with the new message added at the end of the log of
    the job it was written for and of no other job. *)
Theorem createLogMessage_shows_in_listings data now s m lo jo :
  fst (JobsResolver.createLogMessage data now s) = Fulfilled m ->
  fst (JobsResolver.logMessages s) = Fulfilled lo ->
  fst (JobsResolver.jobs s) = Fulfilled jo ->
  exists j w,
    In j (jobs s) /\ Job.id j = CreateLogMessageInput.jobId data /\
    In w (workers s) /\ JobWorker.id w = CreateLogMessageInput.workerId data /\
    fst (JobsResolver.logMessages (snd (JobsResolver.createLogMessage data now s)))
    = Fulfilled (lo ++ [(m, Some j, Some w)])%list /\
    fst (JobsResolver.jobs (snd (JobsResolver.createLogMessage data now s)))
    = Fulfilled
        (map (fun e =>
                (fst (fst e),
                 (snd (fst e)
                  ++ (if Job.id (fst (fst e)) =? CreateLogMessageInput.jobId data
                      then [m] else []))%list,
                 snd e))
             jo).
Proof.
  rewrite createLogMessage_run.
  destruct (find _ (jobs s)) as [j|] eqn:Fj; [|discriminate].
  destruct (find _ (workers s)) as [w|] eqn:Fw; [|discriminate].
  unfold LogMessage_insert, JobsResolver.logMessages, JobsResolver.jobs; simpl.
  intros R L J; injection R as <-; injection L as <-; injection J as <-.
  pose proof (find_some _ _ Fj) as [Hj Ej]; apply Z.eqb_eq in Ej.
  pose proof (find_some _ _ Fw) as [Hw Ew]; apply Z.eqb_eq in Ew.
  exists j, w; repeat split; auto.
  - rewrite map_app; simpl; f_equal; f_equal.
    unfold LogMessage_relations; simpl; rewrite Ej, Ew, Fj, Fw; reflexivity.
  - f_equal; rewrite map_map; apply map_ext; intros k.
    unfold Job_relations; simpl; rewrite filter_app; simpl.
    rewrite Ej, (Z.eqb_sym (CreateLogMessageInput.jobId data)); reflexivity.
Qed.

Lemma createLogMessage_shows_in_listings_witness :
  exists j w,
    In j (jobs sample_store) /\ Job.id j = 2 /\
    In w (workers sample_store) /\ JobWorker.id w = 1 /\
    fst (JobsResolver.logMessages
           (snd (JobsResolver.createLogMessage (CreateLogMessageInput.mk 2 1 "hello") 20
                   sample_store)))
    = Fulfilled ([] ++ [(LogMessage.mk 1 "hello" 20 20 1 2, Some j, Some w)])%list /\
    fst (JobsResolver.jobs
           (snd (JobsResolver.createLogMessage (CreateLogMessageInput.mk 2 1 "hello") 20
                   sample_store)))
    = Fulfilled
        (map (fun e =>
                (fst (fst e),
                 (snd (fst e)
                  ++ (if Job.id (fst (fst e)) =? 2
                      then [LogMessage.mk 1 "hello" 20 20 1 2] else []))%list,
                 snd e))
             (map (Job_relations sample_store) (jobs sample_store))).
Proof.
  apply (createLogMessage_shows_in_listings (CreateLogMessageInput.mk 2 1 "hello") 20
           sample_store (LogMessage.mk 1 "hello" 20 20 1 2) []
           (map (Job_relations sample_store) (jobs sample_store)));
    reflexivity.
Defined.

(** ** Reading a not-found error *)

Lemma show_number_inj a b : show_number a = show_number b -> a = b.
Proof.
  unfold show_number; intros H.
  assert (P : forall z, NilZero.int_of_string (NilZero.string_of_int (Z.to_int z))
                        = Some (Z.to_int z)).
  { intros z; apply NilZero.isi; intros C;
      pose proof (DecimalZ.of_to z) as O; rewrite C in O; simpl in O;
      subst z; discriminate C. }
  pose proof (P a) as Pa; rewrite H, P in Pa; injection Pa as E.
  rewrite <- (DecimalZ.of_to a), <- (DecimalZ.of_to b), E; reflexivity.
Qed.

Lemma append_length s t :
  String.length (s ++ t) = (String.length s + String.length t)%nat.
Proof. induction s as [|c s IH]; simpl; [reflexivity | rewrite IH; reflexivity]. Qed.

Lemma append_cancel_r t s1 s2 : (s1 ++ t = s2 ++ t)%string -> s1 = s2.
Proof.
  revert s2; induction s1 as [|c s1 IH]; intros [|c2 s2] H; simpl in H.
  - reflexivity.
  - apply (f_equal String.length) in H; simpl in H; rewrite append_length in H; lia.
  - apply (f_equal String.length) in H; simpl in H; rewrite append_length in H; lia.
  - injection H as -> H; f_equal; apply IH; exact H.
Qed.

(** X16: a not-found error tells what is missing.  The three messages the
    resolver uses (for a JobWorker, a Job and a Worker) never coincide, and
    a message determines the id it reports. *)
Theorem NotFound_unambiguous k1 i1 k2 i2 e :
  In k1 ["JobWorker"; "Job"; "Worker"] ->
  In k2 ["JobWorker"; "Job"; "Worker"] ->
  NotFound k1 i1 e -> NotFound k2 i2 e ->
  k1 = k2 /\ i1 = i2.
Proof.
  unfold NotFound; intros H1 H2 M1 M2; rewrite M1 in M2; clear M1.
  assert (D : forall k, (k ++ " " ++ show_number i1 ++ " not found"
                         = k ++ " " ++ show_number i2 ++ " not found")%string ->
                        i1 = i2).
  { intros k H; apply show_number_inj, (append_cancel_r " not found").
    induction k as [|c k IH]; simpl in H; injection H; auto. }
  simpl in H1, H2.
  destruct H1 as [<-|[<-|[<-|[]]]]; destruct H2 as [<-|[<-|[<-|[]]]];
    try (split; [reflexivity | eapply D; exact M2]);
    exfalso; simpl in M2; discriminate M2.
Qed.

Lemma NotFound_unambiguous_witness :
  "Worker" = "Worker" /\ 7 = 7.
Proof.
  apply (NotFound_unambiguous "Worker" 7 "Worker" 7
           (mkApolloError "Worker 7 not found" (Some "404"))).
  - right; right; left; reflexivity.
  - right; right; left; reflexivity.
  - reflexivity.
  - reflexivity.
Defined.
